(** * Propositional reasoning engines: resolution, Horn abduction, FOIL

    Shallow embedding of the Python modules
      - [PropDeduction.py]          (negate, resolve, resolution_entails)
      - [PropInductionwCostMin.py]  (HornClause, abduce, abduce_min_cost)
      - [PropInduction.py]          (foil_gain, learn_rules)

    Python [str] is [string]; a [frozenset]/[set] of strings is [gset string]
    (content equality, as Python's set equality); a set of clauses is
    [gset (gset string)].  Python [float] is modelled by [R] (with an
    explicit [Inf] where the code uses [float('inf')]).  Loops and
    recursion that Python runs until they stop are given a [fuel] argument;
    running out of fuel is reported separately ([None] or [OutOfFuel]) and
    never confused with a result of the program. *)

From Stdlib Require Import Ascii Reals Lra.
From stdpp Require Import base gmap sets list strings.

Open Scope string_scope.
Open Scope char_scope.
Open Scope string_scope.
Open Scope list_scope.

(* ================================================================= *)
(** ** PropDeduction.py *)

Module Deduction.

(** [Literal = str]; [Clause = FrozenSet[Literal]] is [gset string]. *)

(** [negate(literal)]:
    [literal[1:] if literal.startswith('~') else '~' + literal] *)
Definition negate (literal : string) : string :=
  match literal with
  | String c rest => if Ascii.eqb c "~"%char then rest else String "~"%char literal
  | EmptyString => String "~"%char literal
  end.

(** [resolve(ci, cj)]: for each [l] in [ci] with [negate(l)] in [cj],
    append [(ci ∪ cj) - {l, nl}]. *)
Definition resolve (ci cj : gset string) : list (gset string) :=
  foldr (λ l resolvents,
           let nl := negate l in
           if decide (nl ∈ cj) then ((ci ∪ cj) ∖ {[l; nl]}) :: resolvents
           else resolvents)
        [] (elements ci).

(** [pairs = [(ci, cj) for ci in clauses for cj in clauses if ci != cj]] *)
Definition pairs (clauses : gset (gset string)) : list (gset string * gset string) :=
  filter (λ '(ci, cj), ci ≠ cj) (list_prod (elements clauses) (elements clauses)).

(** The inner [for resolvent in resolve(ci, cj)] loop: [None] is the
    [return True] on an empty resolvent, [Some new] the updated [new]. *)
Fixpoint add_resolvents (rs : list (gset string)) (new : gset (gset string))
    : option (gset (gset string)) :=
  match rs with
  | [] => Some new
  | r :: rs' =>
      if decide (size r = 0) then None else add_resolvents rs' ({[r]} ∪ new)
  end.

(** The [for (ci, cj) in pairs] loop. *)
Fixpoint scan_pairs (ps : list (gset string * gset string)) (new : gset (gset string))
    : option (gset (gset string)) :=
  match ps with
  | [] => Some new
  | (ci, cj) :: ps' =>
      match add_resolvents (resolve ci cj) new with
      | None => None
      | Some new' => scan_pairs ps' new'
      end
  end.

(** The [while True] loop, with fuel: [None] means the fuel ran out. *)
Fixpoint entails_loop (fuel : nat) (clauses new : gset (gset string)) : option bool :=
  match fuel with
  | O => None
  | S fuel' =>
      match scan_pairs (pairs clauses) new with
      | None => Some true
      | Some new' =>
          if decide (new' ⊆ clauses) then Some false
          else entails_loop fuel' (clauses ∪ new') new'
      end
  end.

(** [resolution_entails(kb, query)] *)
Definition resolution_entails (fuel : nat) (kb : gset (gset string)) (query : string)
    : option bool :=
  let negated_query : gset string := {[negate query]} in
  let clauses := kb ∪ {[negated_query]} in
  entails_loop fuel clauses ∅.

(** The clauses produced by one round over the clause set [S]: the
    resolvents of the pairs of distinct clauses of [S]. *)
Definition is_resolvent (S : gset (gset string)) (r : gset string) : Prop :=
  ∃ ci cj, ci ∈ S ∧ cj ∈ S ∧ ci ≠ cj ∧ r ∈ resolve ci cj.

(** The literals occurring in a set of clauses. *)
Definition clause_literals (S : gset (gset string)) : gset string := ⋃ (elements S).

(** All subsets of a list of literals (used to bound the number of
    distinct clauses over a finite vocabulary). *)
Fixpoint subsets (ls : list string) : list (gset string) :=
  match ls with
  | [] => [∅]
  | x :: xs => subsets xs ++ map (λ X, {[x]} ∪ X) (subsets xs)
  end.

(** Classical meaning of a clause under an assignment [v] of truth values
    to atoms: a literal ["~a"] holds when [a] is false, any other literal
    [a] when [a] is true; a clause holds when one of its literals does. *)
Definition lit_holds (v : string → bool) (l : string) : bool :=
  match l with
  | String c a => if Ascii.eqb c "~"%char then negb (v a) else v l
  | EmptyString => v l
  end.

Definition clause_holds (v : string → bool) (c : gset string) : Prop :=
  ∃ l, l ∈ c ∧ lit_holds v l = true.

Definition complementary_pair_kb : gset (gset string) :=
  {[ {["A"; "B"]}; {["~A"; "~B"]} ]}.

Definition demo_kb : gset (gset string) :=
  {[ {["A"; "B"]}; {["~A"; "C"]}; {["~B"; "C"]}; {["~C"; "D"]} ]}.

End Deduction.

(* ================================================================= *)
(** ** PropInductionwCostMin.py (the same [abduce] as in
       PropHornClauseAbduction.py) *)

Module Abduction.

(** [class HornClause]: [head :- body1, body2, ...] *)
Record HornClause := HC { head : string; body : list string }.

(** [for combo in product( *sub_expls): merged = set().union( *combo)]:
    one union per combination, in [itertools.product] order. *)
Fixpoint product_unions (sub_expls : list (list (gset string))) : list (gset string) :=
  match sub_expls with
  | [] => [∅]
  | exs :: rest => flat_map (λ e, map (λ merged, e ∪ merged) (product_unions rest)) exs
  end.

(** [minimal = [e for e in explanations
                if not any((other < e) for other in explanations)]] *)
Definition prune_minimal (explanations : list (gset string)) : list (gset string) :=
  filter (λ e, existsb (λ other, bool_decide (other ⊂ e)) explanations = false)
         explanations.

(** The [for clause in kb: if clause.head == goal: ...] loop of [abduce],
    given the recursive call [rec b = abduce(b, kb, abducibles, seen)]. *)
Fixpoint clause_loop (rec : string → option (list (gset string))) (goal : string)
    (cls : list HornClause) : option (list (gset string)) :=
  match cls with
  | [] => Some []
  | clause :: cls' =>
      if decide (head clause = goal) then
        sub_expls ← mapM rec (body clause);
        rest ← clause_loop rec goal cls';
        (* if any body literal fails to explain, skip this clause *)
        if existsb (λ exs, Nat.eqb (length exs) 0) sub_expls then Some rest
        else Some (product_unions sub_expls ++ rest)
      else clause_loop rec goal cls'
  end.

(** [abduce(goal, kb, abducibles, seen)]; [fuel] bounds the recursion
    depth ([None]: fuel ran out). *)
Fixpoint abduce (fuel : nat) (goal : string) (kb : list HornClause)
    (abducibles : gset string) (seen : gset string) : option (list (gset string)) :=
  match fuel with
  | O => None
  | S fuel' =>
      if decide (goal ∈ seen) then Some [] else
      let seen := seen ∪ {[goal]} in
      (* 1) Direct assumption *)
      let direct := if decide (goal ∈ abducibles) then [{[goal]}] else [] in
      (* 2) Derivation via clauses *)
      derived ← clause_loop (λ b, abduce fuel' b kb abducibles seen) goal kb;
      (* 3) Prune non-minimal *)
      Some (prune_minimal (direct ++ derived))
  end.

(** The top-level call [abduce(goal, kb, abducibles)] ([seen=None]). *)
Definition abduce_top (fuel : nat) (goal : string) (kb : list HornClause)
    (abducibles : gset string) : option (list (gset string)) :=
  abduce fuel goal kb abducibles ∅.

(** Python floats as they occur in the cost sums: a real or [inf]. *)
Inductive ext_float := Fin (x : R) | Inf.

(** [+] on these values: [inf] absorbs every finite value. *)
Definition ext_add (a b : ext_float) : ext_float :=
  match a, b with
  | Fin x, Fin y => Fin (x + y)
  | _, _ => Inf
  end.

(** [<] on these values. *)
Definition ext_lt (a b : ext_float) : bool :=
  match a, b with
  | Fin x, Fin y => if Rlt_dec x y then true else false
  | Fin _, Inf => true
  | Inf, _ => false
  end.

(** [==] on these values ([inf == inf] is [True]). *)
Definition ext_eqb (a b : ext_float) : bool :=
  match a, b with
  | Fin x, Fin y => if Req_EM_T x y then true else false
  | Inf, Inf => true
  | _, _ => false
  end.

(** The order [<=] on these values, used to state what a minimum is. *)
Definition ext_le (a b : ext_float) : Prop :=
  match a, b with
  | Fin x, Fin y => (x <= y)%R
  | _, Inf => True
  | Inf, Fin _ => False
  end.

(** [cost.get(a, float('inf'))] *)
Definition cost_get (cost : gmap string R) (a : string) : ext_float :=
  match cost !! a with
  | Some c => Fin c
  | None => Inf
  end.

(** [sum(cost.get(a, float('inf')) for a in expl)] (start value [0]). *)
Definition total_cost (cost : gmap string R) (expl : gset string) : ext_float :=
  foldl (λ acc a, ext_add acc (cost_get cost a)) (Fin 0) (elements expl).

(** Built-in [min]: keep the current value unless the next is [<] it. *)
Definition py_min (first : ext_float) (rest : list ext_float) : ext_float :=
  foldl (λ cur s, if ext_lt s cur then s else cur) first rest.

(** [abduce_min_cost(goal, kb, abducibles, cost)] *)
Definition abduce_min_cost (fuel : nat) (goal : string) (kb : list HornClause)
    (abducibles : gset string) (cost : gmap string R) : option (list (gset string)) :=
  all_expls ← abduce_top fuel goal kb abducibles;
  let scored := map (λ expl, (total_cost cost expl, expl)) all_expls in
  match scored with
  | [] => Some []
  | (s0, _) :: rest =>
      let min_cost := py_min s0 (map fst rest) in
      Some (map snd (filter (λ '(score, _), ext_eqb score min_cost = true) scored))
  end.

(** Horn derivability, used to state what an explanation is: the atom [g]
    follows from the assumed atoms [E] with the clauses of [kb], by a
    derivation of depth at most [n]. *)
Inductive derives_n (kb : list HornClause) (E : gset string) : nat → string → Prop :=
| derives_assumed n g : g ∈ E → derives_n kb E n g
| derives_clause n g bs :
    HC g bs ∈ kb → (∀ b, b ∈ bs → derives_n kb E n b) → derives_n kb E (S n) g.

Definition derives (kb : list HornClause) (E : gset string) (g : string) : Prop :=
  ∃ n, derives_n kb E n g.

(** The atoms occurring in the clause bodies of [kb]. *)
Definition body_atoms (kb : list HornClause) : gset string :=
  list_to_set (concat (map body kb)).

(** The knowledge base of the module's example:
    [r :- p, q.  r :- s.  p :- t.  q.] *)
Definition demo_kb : list HornClause :=
  [HC "r" ["p"; "q"]; HC "r" ["s"]; HC "p" ["t"]; HC "q" []].

Definition demo_abducibles : gset string := {["s"; "t"]}.

End Abduction.

(* ================================================================= *)
(** ** PropInduction.py *)

Module Induction.

(** Outcomes of a Python call: a value, or a raised exception.
    [OutOfFuel] only marks that the model's loop bound was reached. *)
Inductive py_error := ValueError | OutOfFuel.
Inductive except (A : Type) := Ok (a : A) | Err (e : py_error).
Arguments Ok {A} a.
Arguments Err {A} e.

(** [math.log2(x)] raises [ValueError] (math domain error) for [x <= 0]. *)
Definition math_log2 (x : R) : except R :=
  if Rle_dec x 0 then Err ValueError else Ok (ln x / ln 2)%R.

(** [foil_gain(p, n, p1, n1)] *)
Definition foil_gain (p n p1 n1 : nat) : except R :=
  if Nat.eqb p 0 || Nat.eqb (p1 + n1) 0 then Ok 0%R else
  match math_log2 (INR p1 / INR (p1 + n1))%R with
  | Err e => Err e
  | Ok a =>
      match math_log2 (INR p / INR (p + n))%R with
      | Err e => Err e
      | Ok b => Ok (INR p1 * (a - b))%R
      end
  end.

(** [Example = Tuple[str, str]], [Literal = Tuple[str, str]]. *)
Definition Example := (string * string)%type.
Definition Literal := (string * string)%type.
Definition Rule := (string * string * list Literal)%type.

(** [best_gain, best_literal, best_pos_cover, best_neg_cover] *)
Record best := Best {
  best_gain : R;
  best_literal : option Literal;
  best_pos_cover : list Example;
  best_neg_cover : list Example
}.

Definition best_init : best := Best 0%R None [] [].

(** [for pred in predicates - {lit[0] for lit in body}: ...]; the list
    [cands] is the iteration order of that set. *)
Fixpoint scan_candidates (background : list Example) (var : string) (p n : nat)
    (pos_cover neg_cover : list Example) (cands : list string) (st : best) : except best :=
  match cands with
  | [] => Ok st
  | pred :: cands' =>
      let new_pos := filter (λ e, (pred, e.2) ∈ background) pos_cover in
      let new_neg := filter (λ e, (pred, e.2) ∈ background) neg_cover in
      match foil_gain p n (length new_pos) (length new_neg) with
      | Err e => Err e
      | Ok gain =>
          scan_candidates background var p n pos_cover neg_cover cands'
            (if Rlt_dec (best_gain st) gain then Best gain (Some (pred, var)) new_pos new_neg
             else st)
      end
  end.

(** The inner [while neg_cover] loop; returns the finished body. *)
Fixpoint refine_body (fuel : nat) (background : list Example) (predicates : list string)
    (var : string) (body : list Literal) (pos_cover neg_cover : list Example)
    : except (list Literal) :=
  match fuel with
  | O => Err OutOfFuel
  | S fuel' =>
      match neg_cover with
      | [] => Ok body
      | _ :: _ =>
          let p := length pos_cover in
          let n := length neg_cover in
          let cands := filter (λ pred, pred ∉ map fst body) predicates in
          match scan_candidates background var p n pos_cover neg_cover cands best_init with
          | Err e => Err e
          | Ok st =>
              match best_literal st with
              | None => Ok body
              | Some lit =>
                  refine_body fuel' background predicates var (body ++ [lit])
                    (best_pos_cover st) (best_neg_cover st)
              end
          end
      end
  end.

(** The outer [while pos_examples] loop. *)
Fixpoint learn_loop (fuel : nat) (background : list Example) (predicates : list string)
    (pos_examples neg_examples : list Example) (rules : list Rule) : except (list Rule) :=
  match fuel with
  | O => Err OutOfFuel
  | S fuel' =>
      match pos_examples with
      | [] => Ok rules
      | e0 :: _ =>
          let head_pred := e0.1 in
          let var := "X" in
          let pos_cover := filter (λ e, e.1 = head_pred) pos_examples in
          let neg_cover := filter (λ e, e.1 = head_pred) neg_examples in
          match refine_body fuel background predicates var [] pos_cover neg_cover with
          | Err e => Err e
          | Ok body =>
              let rules := rules ++ [(head_pred, var, body)] in
              let covered :=
                filter (λ e, e.1 = head_pred ∧ Forall (λ lit, (lit.1, e.2) ∈ background) body)
                       pos_examples in
              let pos_examples := filter (λ e, e ∉ covered) pos_examples in
              learn_loop fuel' background predicates pos_examples neg_examples rules
          end
      end
  end.

(** [learn_rules(pos, neg, background, predicates)]; [predicates] is
    given in the iteration order of the Python set. *)
Definition learn_rules (fuel : nat) (pos neg background : list Example)
    (predicates : list string) : except (list Rule) :=
  learn_loop fuel background predicates pos neg [].

(** The test of line 88 that removes a positive example once a rule is
    learned: [e[0] == head_pred and all((pred, e[1]) in background for pred, _ in body)]. *)
Definition rule_covers (background : list Example) (r : Rule) (e : Example) : Prop :=
  e.1 = r.1.1 ∧ Forall (λ lit : Literal, (lit.1, e.2) ∈ background) r.2.

(** The data of the module's example. *)
Definition demo_background : list Example :=
  [("Bird", "tweety"); ("Bird", "polly"); ("Bird", "tweety2");
   ("Mammal", "leo"); ("Mammal", "max")].
Definition demo_pos : list Example :=
  [("Fly", "tweety"); ("Fly", "polly"); ("Fly", "tweety2")].
Definition demo_neg : list Example := [("Fly", "leo"); ("Fly", "max")].

End Induction.

(* ================================================================= *)
(** ** Theorems: PropDeduction.py *)

Module DeductionFacts.
Import Deduction.

(** *** negate *)

(** Claim C9: [negate (negate l) = l] for every literal [l].  A literal
    is an atom or an atom with one negation marker [~], never
    double-negated; the hypothesis says exactly that [l] does not start
    with [~~]. *)
Theorem negate_involutive (l : string)
    (Hcanon : ∀ rest, l ≠ String "~" (String "~" rest)) :
  negate (negate l) = l.
Proof.
  destruct l as [|c rest]; [reflexivity |].
  unfold negate at 2. destruct (Ascii.eqb c "~") eqn:Hc.
  - apply Ascii.eqb_eq in Hc. subst c.
    destruct rest as [|c' rest']; [reflexivity |].
    simpl. destruct (Ascii.eqb c' "~") eqn:Hc'.
    + apply Ascii.eqb_eq in Hc'. subst c'. exfalso. by apply (Hcanon rest').
    + reflexivity.
  - reflexivity.
Qed.

Lemma negate_involutive_witness :
  (∀ rest, "~A" ≠ String "~" (String "~" rest)) ∧ negate (negate "~A") = "~A".
Proof.
  split.
  - intros rest H. discriminate H.
  - apply (negate_involutive "~A"). intros rest H. discriminate H.
Defined.

(** *** resolve *)

(** Claim C1, counterexample: resolving [{A, B}] with [{~A, ~B}] on [A]
    gives the resolvent [{B, ~B}], which contains the literal [B]
    together with its complement. *)
Lemma resolve_tautology_counterexample :
  {["B"; "~B"]} ∈ resolve {["A"; "B"]} {["~A"; "~B"]} ∧
  "B" ∈ ({["B"; "~B"]} : gset string) ∧ negate "B" ∈ ({["B"; "~B"]} : gset string).
Proof.
  split; [| split].
  - apply list_elem_of_In. vm_compute. tauto.
  - set_solver.
  - vm_compute. set_solver.
Qed.

Lemma resolve_cons_spec (ci cj : gset string) (ls : list string) r :
  r ∈ foldr (λ l resolvents,
               let nl := negate l in
               if decide (nl ∈ cj) then ((ci ∪ cj) ∖ {[l; nl]}) :: resolvents
               else resolvents) [] ls ↔
  ∃ l, l ∈ ls ∧ negate l ∈ cj ∧ r = (ci ∪ cj) ∖ {[l; negate l]}.
Proof.
  induction ls as [|l ls IH]; simpl.
  - split; [intros H; inversion H | intros (l & Hl & _); inversion Hl].
  - case_decide as Hn.
    + rewrite elem_of_cons, IH. split.
      * intros [-> | (l' & ? & ? & ->)]; [exists l | exists l']; set_solver.
      * intros (l' & Hl' & ? & ->). apply elem_of_cons in Hl' as [-> | ?]; [by left |].
        right. by exists l'.
    + rewrite IH. split.
      * intros (l' & ? & ? & ->). exists l'. set_solver.
      * intros (l' & Hl' & ? & ->). apply elem_of_cons in Hl' as [-> | ?]; [done |].
        by exists l'.
Qed.

(** Claim C1 (amended): every resolvent [r] returned by [resolve ci cj] is
    [(ci ∪ cj) ∖ {l, negate l}] for one literal [l] of [ci] whose negation
    is in [cj], and each such literal gives a resolvent.  No further
    literal is removed, so [r] may still contain a complementary pair. *)
Theorem resolve_spec (ci cj r : gset string) :
  r ∈ resolve ci cj ↔
  ∃ l, l ∈ ci ∧ negate l ∈ cj ∧ r = (ci ∪ cj) ∖ {[l; negate l]}.
Proof.
  unfold resolve. rewrite resolve_cons_spec.
  setoid_rewrite elem_of_elements. done.
Qed.

(** *** resolution_entails *)

(** Claim C4: on the knowledge base [{A, B}, {~A, C}, {~B, C}, {~C, D}]
    the saturation loop stops with [True] for the query [D] and with
    [False] for the query [A]. *)
Theorem resolution_entails_demo :
  resolution_entails 20 demo_kb "D" = Some true ∧
  resolution_entails 20 demo_kb "A" = Some false.
Proof. split; vm_compute; reflexivity. Qed.


Lemma elem_of_pairs S ci cj :
  (ci, cj) ∈ pairs S ↔ ci ∈ S ∧ cj ∈ S ∧ ci ≠ cj.
Proof.
  unfold pairs. rewrite list_elem_of_filter, list_elem_of_In, in_prod_iff.
  rewrite <- !list_elem_of_In, !elem_of_elements. tauto.
Qed.

Lemma add_resolvents_none rs new :
  add_resolvents rs new = None ↔ ∃ r, r ∈ rs ∧ size r = 0.
Proof.
  revert new. induction rs as [|r rs IH]; intros new; simpl.
  - split; [discriminate | intros (r & Hr & _); inversion Hr].
  - case_decide as Hr.
    + split; [intros _; exists r; split; [left | done] | done].
    + rewrite IH. split.
      * intros (r' & ? & ?). exists r'. split; [by right | done].
      * intros (r' & Hr' & Hs). apply elem_of_cons in Hr' as [-> | ?]; [done |].
        by exists r'.
Qed.

Lemma add_resolvents_some rs new n :
  add_resolvents rs new = Some n → ∀ x, x ∈ n ↔ x ∈ new ∨ x ∈ rs.
Proof.
  revert new. induction rs as [|r rs IH]; intros new; simpl.
  - intros [= ->] x. split; [by left | intros [? | Hx]; [done | inversion Hx]].
  - case_decide; [discriminate |]. intros Hadd x. rewrite (IH _ Hadd x).
    rewrite elem_of_union, elem_of_singleton, elem_of_cons. tauto.
Qed.

Lemma scan_pairs_none ps new :
  scan_pairs ps new = None ↔
  ∃ ci cj r, (ci, cj) ∈ ps ∧ r ∈ resolve ci cj ∧ size r = 0.
Proof.
  revert new. induction ps as [|[ci cj] ps IH]; intros new; simpl.
  - split; [discriminate | intros (? & ? & ? & Hp & _); inversion Hp].
  - destruct (add_resolvents (resolve ci cj) new) as [new'|] eqn:Hadd.
    + rewrite IH. split.
      * intros (ci' & cj' & r & ? & ? & ?). exists ci', cj', r.
        split; [by right | done].
      * intros (ci' & cj' & r & Hp & Hr & Hs).
        apply elem_of_cons in Hp as [[= -> ->] | Hp].
        -- assert (add_resolvents (resolve ci cj) new = None) as Hn
             by (apply add_resolvents_none; eauto).
           congruence.
        -- eauto 10.
    + split; [intros _ | done].
      apply add_resolvents_none in Hadd as (r & ? & ?).
      exists ci, cj, r. split; [left | done].
Qed.

Lemma scan_pairs_some ps new n :
  scan_pairs ps new = Some n →
  ∀ x, x ∈ n ↔ x ∈ new ∨ ∃ ci cj, (ci, cj) ∈ ps ∧ x ∈ resolve ci cj.
Proof.
  revert new. induction ps as [|[ci cj] ps IH]; intros new; simpl.
  - intros [= ->] x. split; [by left | intros [? | (? & ? & Hp & _)]; [done | inversion Hp]].
  - destruct (add_resolvents (resolve ci cj) new) as [new'|] eqn:Hadd; [| discriminate].
    intros Hscan x. rewrite (IH _ Hscan x), (add_resolvents_some _ _ _ Hadd x).
    split.
    + intros [[? | ?] | (ci' & cj' & ? & ?)]; [by left | right; exists ci, cj; split; [left | done] |].
      right. exists ci', cj'. split; [by right | done].
    + intros [? | (ci' & cj' & Hp & ?)]; [by left; left |].
      apply elem_of_cons in Hp as [[= -> ->] | Hp]; [by left; right |].
      right. eauto.
Qed.

Lemma round_empty S new :
  scan_pairs (pairs S) new = None ↔ ∃ r, is_resolvent S r ∧ size r = 0.
Proof.
  rewrite scan_pairs_none. unfold is_resolvent. split.
  - intros (ci & cj & r & Hp & ? & ?). apply elem_of_pairs in Hp as (? & ? & ?).
    exists r. split; [exists ci, cj; done | done].
  - intros (r & (ci & cj & ? & ? & ? & ?) & ?). exists ci, cj, r.
    rewrite elem_of_pairs. done.
Qed.

Lemma round_new S new n :
  scan_pairs (pairs S) new = Some n → ∀ x, x ∈ n ↔ x ∈ new ∨ is_resolvent S x.
Proof.
  intros H x. rewrite (scan_pairs_some _ _ _ H x). unfold is_resolvent. split.
  - intros [? | (ci & cj & Hp & ?)]; [by left |].
    apply elem_of_pairs in Hp as (? & ? & ?). right. by exists ci, cj.
  - intros [? | (ci & cj & ? & ? & ? & ?)]; [by left |].
    right. exists ci, cj. rewrite elem_of_pairs. done.
Qed.

Lemma is_resolvent_mono S S' r : S ⊆ S' → is_resolvent S r → is_resolvent S' r.
Proof. intros HS (ci & cj & ? & ? & ? & ?). exists ci, cj. set_solver. Qed.

(** Once the clause set has reached a set [C] closed under resolution
    that yields no empty resolvent, the loop can no longer answer [True]. *)
Lemma entails_loop_closed fuel S new C :
  S ⊆ C → new ⊆ C →
  (∀ x, is_resolvent C x → x ∈ C) →
  ¬ (∃ r, is_resolvent C r ∧ size r = 0) →
  entails_loop fuel S new ≠ Some true.
Proof.
  revert S new. induction fuel as [|fuel IH]; intros S new HS Hnew Hclosed Hempty; simpl;
    [discriminate |].
  destruct (scan_pairs (pairs S) new) as [n|] eqn:Hscan.
  - pose proof (round_new _ _ _ Hscan) as Hn.
    case_decide; [discriminate |].
    apply IH.
    + intros x. rewrite elem_of_union, Hn. intros [? | [? | ?]]; [set_solver | set_solver |].
      apply Hclosed. eauto using is_resolvent_mono.
    + intros x. rewrite Hn. intros [? | ?]; [set_solver |].
      apply Hclosed. eauto using is_resolvent_mono.
    + done.
    + done.
  - apply round_empty in Hscan as (r & ? & ?). exfalso. apply Hempty.
    eauto using is_resolvent_mono.
Qed.

(** A run from more clauses answers [True] no later than a run from fewer. *)
Lemma entails_loop_mono fuel S new S' new' :
  new ⊆ S → S ⊆ S' →
  entails_loop fuel S new = Some true → entails_loop fuel S' new' = Some true.
Proof.
  revert S new S' new'. induction fuel as [|fuel IH]; intros S new S' new' Hnew HS; simpl;
    [discriminate |].
  destruct (scan_pairs (pairs S') new') as [n'|] eqn:Hscan'; [| done].
  destruct (scan_pairs (pairs S) new) as [n|] eqn:Hscan.
  - pose proof (round_new _ _ _ Hscan) as Hn.
    pose proof (round_new _ _ _ Hscan') as Hn'.
    case_decide; [discriminate |]. intros Hrun.
    assert (∀ x, x ∈ S ∪ n → x ∈ S' ∪ n') as Hsub.
    { intros x. rewrite !elem_of_union, Hn, Hn'.
      intros [? | [? | ?]]; [set_solver | set_solver |].
      right. right. eauto using is_resolvent_mono. }
    case_decide as Hfix.
    + exfalso. revert Hrun. apply (entails_loop_closed _ _ _ S').
      * intros x Hx. pose proof (Hsub x Hx). set_solver.
      * intros x Hx. assert (x ∈ S ∪ n) as Hx' by set_solver.
        pose proof (Hsub x Hx'). set_solver.
      * intros x Hx. apply Hfix, Hn'. by right.
      * intros (r & Hr & Hs).
        assert (scan_pairs (pairs S') new' = None) as Hnone
          by (apply round_empty; eauto).
        congruence.
    + apply (IH (S ∪ n) n); [set_solver | | done].
      intros x. apply Hsub.
  - intros _. apply round_empty in Hscan as (r & ? & ?).
    assert (scan_pairs (pairs S') new' = None) as Hnone
      by (apply round_empty; eauto using is_resolvent_mono).
    congruence.
Qed.

(** Claim C5: if [resolution_entails kb q] answers [True], then so does
    [resolution_entails (kb ∪ kb') q]: adding clauses never turns an
    entailed query into a non-entailed one (with the same fuel, the larger
    knowledge base reaches the empty clause no later). *)
Theorem resolution_entails_monotone fuel (kb kb' : gset (gset string)) (q : string)
    (Hent : resolution_entails fuel kb q = Some true) :
  resolution_entails fuel (kb ∪ kb') q = Some true.
Proof.
  revert Hent. unfold resolution_entails. apply entails_loop_mono; set_solver.
Qed.

Lemma resolution_entails_monotone_witness :
  resolution_entails 20 demo_kb "D" = Some true ∧
  resolution_entails 20 (demo_kb ∪ {[ {["~D"; "E"]} ]}) "D" = Some true.
Proof.
  assert (H : resolution_entails 20 demo_kb "D" = Some true) by (vm_compute; reflexivity).
  split; [exact H | apply (resolution_entails_monotone 20 demo_kb _ "D" H)].
Defined.

End DeductionFacts.

(* ================================================================= *)
(** ** Theorems: PropInductionwCostMin.py *)

Module AbductionFacts.
Import Abduction.

Lemma elem_of_prune_minimal e l :
  e ∈ prune_minimal l ↔ e ∈ l ∧ ∀ other, other ∈ l → ¬ other ⊂ e.
Proof.
  unfold prune_minimal. rewrite list_elem_of_filter.
  split; intros [Hex He]; split; try done.
  - intros other Ho Hlt.
    revert Hex.
    assert (existsb (λ other, bool_decide (other ⊂ e)) l = true) as Ht.
    { apply existsb_exists. exists other. split; [by apply list_elem_of_In |].
      by apply bool_decide_eq_true. }
    congruence.
  - apply not_true_iff_false. intros Ht.
    apply existsb_exists in Ht as (other & Ho & Hlt).
    apply bool_decide_eq_true in Hlt. apply list_elem_of_In in Ho.
    by apply (He other).
Qed.

(** Every answer of [abduce] is the pruned list of some candidates. *)
Lemma abduce_pruned fuel goal kb abducibles seen res :
  abduce fuel goal kb abducibles seen = Some res →
  ∃ candidates, res = prune_minimal candidates.
Proof.
  destruct fuel as [|fuel]; simpl; [discriminate |].
  case_decide.
  - intros [= <-]. by exists [].
  - destruct (clause_loop _ goal kb) as [derived|]; simpl; [| discriminate].
    intros [= <-]. eauto.
Qed.

(** Claim C7: any two distinct explanations returned by [abduce] are
    incomparable: neither is a strict subset of the other. *)
Theorem abduce_antichain fuel goal kb abducibles seen res
    (Hres : abduce fuel goal kb abducibles seen = Some res)
    (E1 E2 : gset string) (H1 : E1 ∈ res) (H2 : E2 ∈ res) (Hne : E1 ≠ E2) :
  ¬ E1 ⊂ E2 ∧ ¬ E2 ⊂ E1.
Proof.
  destruct (abduce_pruned _ _ _ _ _ _ Hres) as [cands ->].
  apply elem_of_prune_minimal in H1 as [H1 Hmin1].
  apply elem_of_prune_minimal in H2 as [H2 Hmin2].
  split; [by apply Hmin2 | by apply Hmin1].
Qed.

Lemma abduce_antichain_witness :
  let t : gset string := {["t"]} in
  let s : gset string := {["s"]} in
  abduce_top 10 "r" demo_kb demo_abducibles = Some [t; s] ∧
  t ∈ [t; s] ∧ s ∈ [t; s] ∧ t ≠ s ∧ ¬ t ⊂ s ∧ ¬ s ⊂ t.
Proof.
  intros t s.
  assert (Hres : abduce_top 10 "r" demo_kb demo_abducibles = Some [t; s])
    by (vm_compute; reflexivity).
  assert (H1 : t ∈ [t; s]) by (left).
  assert (H2 : s ∈ [t; s]) by (right; left).
  assert (Hne : t ≠ s) by (vm_compute; discriminate).
  split; [exact Hres | split; [exact H1 | split; [exact H2 | split; [exact Hne |]]]].
  exact (abduce_antichain 10 "r" demo_kb demo_abducibles ∅ _ Hres _ _ H1 H2 Hne).
Defined.

(** Claim C6: with the knowledge base [r :- p, q.  r :- s.  p :- t.  q.]
    and abducibles [{s, t}], [abduce('r', kb, abducibles)] returns exactly
    the two explanations [{t}] and [{s}], each once. *)
Theorem abduce_demo :
  abduce_top 10 "r" demo_kb demo_abducibles = Some [{["t"]}; {["s"]}].
Proof. vm_compute. reflexivity. Qed.

(** A fact [goal.] of the knowledge base contributes the empty
    explanation to the candidates. *)
Lemma clause_loop_fact rec goal cls derived :
  clause_loop rec goal cls = Some derived → HC goal [] ∈ cls → ∅ ∈ derived.
Proof.
  revert derived. induction cls as [|clause cls IH]; intros derived; simpl.
  - intros _ Hin. inversion Hin.
  - intros Hloop Hin. apply elem_of_cons in Hin as [<- | Hin].
    + simpl in Hloop. rewrite decide_True in Hloop by done. simpl in Hloop.
      destruct (clause_loop rec goal cls); simpl in Hloop; [| discriminate].
      injection Hloop as <-. by left.
    + case_decide.
      * destruct (mapM rec (body clause)) as [subs|]; simpl in Hloop; [| discriminate].
        destruct (clause_loop rec goal cls) as [rest|] eqn:Hrest; simpl in Hloop;
          [| discriminate].
        specialize (IH rest eq_refl Hin).
        destruct (existsb _ subs); injection Hloop as <-; [done |].
        apply elem_of_app. by right.
      * by apply IH.
Qed.

(** Claim C10, counterexample: in [q.  q :- u.  u.] the goal [q] is a
    fact, and [abduce('q', kb, set())] returns the empty explanation twice
    (once from the fact, once through [u]), not the one-element list. *)
Lemma abduce_fact_counterexample :
  abduce_top 10 "q" [HC "q" []; HC "q" ["u"]; HC "u" []] ∅ = Some [∅; ∅] ∧
  abduce_top 10 "q" [HC "q" []; HC "q" ["u"]; HC "u" []] ∅ ≠ Some [∅].
Proof. split; vm_compute; [reflexivity | discriminate]. Qed.

(** Claim C10 (amended): if [goal] is not already being expanded (in
    particular at the top-level call) and the knowledge base has the fact
    [goal.], the list returned by [abduce] is non-empty and every element
    is the empty explanation; so [{goal}] is never returned, even when
    [goal] is abducible. *)
Theorem abduce_fact_only_empty fuel goal kb abducibles seen res
    (Hres : abduce fuel goal kb abducibles seen = Some res)
    (Hnew : goal ∉ seen) (Hfact : HC goal [] ∈ kb) :
  res ≠ [] ∧ ∀ e, e ∈ res → e = ∅.
Proof.
  destruct fuel as [|fuel]; simpl in Hres; [discriminate |].
  rewrite decide_False in Hres by done.
  destruct (clause_loop _ goal kb) as [derived|] eqn:Hloop; simpl in Hres; [| discriminate].
  injection Hres as <-.
  pose proof (clause_loop_fact _ _ _ _ Hloop Hfact) as Hempty.
  set (cands := (if decide (goal ∈ abducibles) then [{[goal]}] else []) ++ derived).
  assert (Hc : (∅ : gset string) ∈ cands) by (apply elem_of_app; by right).
  split.
  - intros Heq. assert (Hin : (∅ : gset string) ∈ prune_minimal cands).
    { apply elem_of_prune_minimal. split; [done |]. intros other _ Hlt. set_solver. }
    rewrite Heq in Hin. inversion Hin.
  - intros e He. apply elem_of_prune_minimal in He as [_ Hmin].
    destruct (decide (e = ∅)) as [| Hne]; [done |].
    exfalso. apply (Hmin ∅ Hc). split; [set_solver |].
    intros Hsub. apply Hne. set_solver.
Qed.

Lemma abduce_fact_only_empty_witness :
  abduce 10 "q" demo_kb {["q"]} ∅ = Some [∅] ∧ ("q" ∉ (∅ : gset string)) ∧
  HC "q" [] ∈ demo_kb ∧
  ([∅] : list (gset string)) ≠ [] ∧ (∀ e : gset string, e ∈ [∅] → e = ∅).
Proof.
  assert (Hres : abduce 10 "q" demo_kb {["q"]} ∅ = Some [∅]) by (vm_compute; reflexivity).
  assert (Hnew : "q" ∉ (∅ : gset string)) by set_solver.
  assert (Hfact : HC "q" [] ∈ demo_kb) by (do 3 right; left).
  split; [exact Hres | split; [exact Hnew | split; [exact Hfact |]]].
  exact (abduce_fact_only_empty 10 "q" demo_kb {["q"]} ∅ [∅] Hres Hnew Hfact).
Defined.

(** *** abduce_min_cost *)

Lemma ext_add_Inf_l b : ext_add Inf b = Inf.
Proof. by destruct b. Qed.

Lemma total_cost_fold_Inf (cost : gmap string R) (l : list string) :
  foldl (λ acc a, ext_add acc (cost_get cost a)) Inf l = Inf.
Proof. induction l as [|a l IH]; simpl; [done | exact IH]. Qed.

Lemma total_cost_fold_missing (cost : gmap string R) (l : list string) acc a :
  a ∈ l → cost !! a = None →
  foldl (λ acc a, ext_add acc (cost_get cost a)) acc l = Inf.
Proof.
  revert acc. induction l as [|b l IH]; intros acc Ha Hnone; simpl; [inversion Ha |].
  apply elem_of_cons in Ha as [-> | Ha].
  - unfold cost_get at 2. rewrite Hnone.
    replace (ext_add acc Inf) with Inf by (by destruct acc).
    apply total_cost_fold_Inf.
  - by apply IH.
Qed.

(** An atom missing from the cost map makes the total [inf]. *)
Lemma total_cost_missing (cost : gmap string R) (e : gset string) a :
  a ∈ e → cost !! a = None → total_cost cost e = Inf.
Proof.
  intros Ha Hnone. unfold total_cost.
  apply (total_cost_fold_missing _ _ _ a); [by apply elem_of_elements | done].
Qed.

Lemma ext_le_refl a : ext_le a a.
Proof. destruct a; simpl; [apply Rle_refl | done]. Qed.

Lemma ext_le_trans a b c : ext_le a b → ext_le b c → ext_le a c.
Proof.
  destruct a, b, c; simpl; try done. apply Rle_trans.
Qed.

Lemma ext_le_antisym a b : ext_le a b → ext_le b a → a = b.
Proof.
  destruct a, b; simpl; try done. intros. f_equal. by apply Rle_antisym.
Qed.

Lemma ext_lt_true a b : ext_lt a b = true → ext_le a b.
Proof.
  destruct a, b; simpl; try done.
  destruct (Rlt_dec x x0); [intros _; by apply Rlt_le | discriminate].
Qed.

Lemma ext_lt_false a b : ext_lt a b = false → ext_le b a.
Proof.
  destruct a, b; simpl; try done.
  destruct (Rlt_dec x x0) as [| Hn]; [discriminate | intros _; by apply Rnot_lt_le].
Qed.

Lemma ext_eqb_true a b : ext_eqb a b = true ↔ a = b.
Proof.
  destruct a, b; simpl; split; try done.
  - destruct (Req_EM_T x x0); [intros _; by subst | discriminate].
  - intros [= ->]. by destruct (Req_EM_T x0 x0).
Qed.

(** Built-in [min] returns one of its arguments, below all of them. *)
Lemma py_min_spec first rest :
  py_min first rest ∈ first :: rest ∧
  ∀ x, x ∈ first :: rest → ext_le (py_min first rest) x.
Proof.
  unfold py_min. revert first. induction rest as [|s rest IH]; intros first; simpl.
  - split; [by left |]. intros x Hx. apply list_elem_of_singleton in Hx as ->.
    apply ext_le_refl.
  - destruct (ext_lt s first) eqn:Hlt.
    + destruct (IH s) as [Hin Hle]. split.
      * apply elem_of_cons in Hin as [-> | Hin]; [by right; left | by right; right].
      * intros x Hx. apply elem_of_cons in Hx as [-> | Hx].
        -- apply (ext_le_trans _ s); [apply Hle; by left | by apply ext_lt_true].
        -- by apply Hle.
    + destruct (IH first) as [Hin Hle]. split.
      * apply elem_of_cons in Hin as [-> | Hin]; [by left | by right; right].
      * intros x Hx. apply elem_of_cons in Hx as [-> | Hx]; [apply Hle; by left |].
        apply elem_of_cons in Hx as [-> | Hx].
        -- apply (ext_le_trans _ first); [apply Hle; by left | by apply ext_lt_false].
        -- apply Hle. by right.
Qed.

Lemma scores_elem (cost : gmap string R) (l : list (gset string)) x :
  x ∈ map fst (map (λ expl, (total_cost cost expl, expl)) l) ↔
  ∃ e, e ∈ l ∧ x = total_cost cost e.
Proof.
  induction l as [|e l IH]; simpl.
  - split; [intros Hx; inversion Hx | intros (? & He & _); inversion He].
  - rewrite elem_of_cons, IH. split.
    + intros [-> | (e' & ? & ->)]; [exists e; split; [left | done] |].
      exists e'. split; [by right | done].
    + intros (e' & He' & ->). apply elem_of_cons in He' as [-> | ?]; [by left |].
      right. eauto.
Qed.

Lemma winners_elem (cost : gmap string R) (l : list (gset string)) m e :
  e ∈ map snd (filter (λ '(score, _), ext_eqb score m = true)
                       (map (λ expl, (total_cost cost expl, expl)) l)) ↔
  e ∈ l ∧ total_cost cost e = m.
Proof.
  induction l as [|e0 l IH]; simpl.
  - split; [intros He; inversion He | intros [He _]; inversion He].
  - rewrite filter_cons. destruct (decide (ext_eqb (total_cost cost e0) m = true)) as [Heq|Heq].
    + simpl. rewrite elem_of_cons, IH, elem_of_cons.
      apply ext_eqb_true in Heq. split.
      * intros [-> | [? ?]]; [split; [by left | done] | split; [by right | done]].
      * intros [[-> | ?] ?]; [by left | by right].
    + rewrite IH, elem_of_cons. split.
      * intros [? ?]; split; [by right | done].
      * intros [[-> | ?] Ht]; [| done]. exfalso. apply Heq. by apply ext_eqb_true.
Qed.

(** Claim C8: [abduce_min_cost] never fails where [abduce] succeeds (a
    missing atom is no error); an atom missing from the cost map makes
    the total of an explanation [inf]; an explanation with such an atom
    is returned only if every explanation has total [inf]; and the
    returned explanations are exactly those whose total is the minimum of
    all totals (every tie included). *)
Theorem abduce_min_cost_spec fuel goal kb abducibles (cost : gmap string R) all_expls
    (Habd : abduce_top fuel goal kb abducibles = Some all_expls) :
  ∃ res, abduce_min_cost fuel goal kb abducibles cost = Some res ∧
    (∀ e a, e ∈ all_expls → a ∈ e → cost !! a = None → total_cost cost e = Inf) ∧
    (∀ e a, e ∈ res → a ∈ e → cost !! a = None →
       ∀ e', e' ∈ all_expls → total_cost cost e' = Inf) ∧
    (∀ e, e ∈ res ↔
       e ∈ all_expls ∧
       ∀ e', e' ∈ all_expls → ext_le (total_cost cost e) (total_cost cost e')).
Proof.
  unfold abduce_min_cost. rewrite Habd. simpl.
  assert (Hmiss : ∀ e a, e ∈ all_expls → a ∈ e → cost !! a = None →
                    total_cost cost e = Inf)
    by (intros e a _; apply total_cost_missing).
  destruct all_expls as [|e0 rest].
  - exists []. split; [done |]. split; [done |].
    split; [intros e a He; inversion He |].
    intros e. split; [intros He; inversion He | intros [He _]; inversion He].
  - simpl.
    set (m := py_min (total_cost cost e0)
                     (map fst (map (λ expl, (total_cost cost expl, expl)) rest))).
    destruct (py_min_spec (total_cost cost e0)
                (map fst (map (λ expl, (total_cost cost expl, expl)) rest))) as [Hmin Hle].
    fold m in Hmin, Hle.
    assert (Hscore : ∀ x, x ∈ total_cost cost e0 ::
                          map fst (map (λ expl, (total_cost cost expl, expl)) rest) ↔
                        ∃ e, e ∈ e0 :: rest ∧ x = total_cost cost e).
    { intros x. rewrite elem_of_cons, scores_elem. split.
      - intros [-> | (e & ? & ->)]; [exists e0; split; [left | done] |].
        exists e. split; [by right | done].
      - intros (e & He & ->). apply elem_of_cons in He as [-> | ?]; [by left |].
        right. eauto. }
    assert (Hwin : ∀ e,
      e ∈ map snd (filter (λ '(score, _), ext_eqb score m = true)
                          (map (λ expl, (total_cost cost expl, expl)) (e0 :: rest))) ↔
      e ∈ e0 :: rest ∧ total_cost cost e = m) by (intros e; apply winners_elem).
    eexists. split; [reflexivity |]. split; [exact Hmiss |]. split.
    + intros e a He Ha Hnone e' He'.
      apply Hwin in He as [He Hm].
      pose proof (Hmiss e a He Ha Hnone) as Hinf. rewrite Hinf in Hm.
      assert (ext_le m (total_cost cost e')) as Hle' by (apply Hle, Hscore; eauto).
      rewrite <- Hm in Hle'. by destruct (total_cost cost e').
    + intros e. rewrite Hwin. split.
      * intros [He Hm]. split; [done |]. intros e' He'. rewrite Hm.
        apply Hle, Hscore. eauto.
      * intros [He Hall]. split; [done |].
        destruct (proj1 (Hscore m) Hmin) as (ej & Hej & Hmj).
        apply ext_le_antisym.
        -- rewrite Hmj. by apply Hall.
        -- apply Hle, Hscore. eauto.
Qed.

Lemma abduce_min_cost_spec_witness :
  abduce_top 10 "r" demo_kb demo_abducibles = Some [{["t"]}; {["s"]}] ∧
  ∃ res, abduce_min_cost 10 "r" demo_kb demo_abducibles {["s" := 5%R]} = Some res.
Proof.
  assert (Habd : abduce_top 10 "r" demo_kb demo_abducibles = Some [{["t"]}; {["s"]}])
    by (vm_compute; reflexivity).
  split; [exact Habd |].
  destruct (abduce_min_cost_spec 10 "r" demo_kb demo_abducibles {["s" := 5%R]} _ Habd)
    as (res & Hres & _).
  by exists res.
Defined.

End AbductionFacts.

(* ================================================================= *)
(** ** Theorems: PropInduction.py *)

Module InductionFacts.
Import Induction.

(** Claim C2 (code bug): the guard of [foil_gain] misses the case [p1 = 0]
    with [n1 > 0]: then [p1 / (p1 + n1) = 0.0] and [math.log2] raises
    [ValueError] instead of [foil_gain] returning a number. *)
Theorem foil_gain_raises_on_zero_p1 (p n n1 : nat) (Hp : p ≠ 0) (Hn1 : n1 ≠ 0) :
  foil_gain p n 0 n1 = Err ValueError.
Proof.
  unfold foil_gain.
  destruct (Nat.eqb_spec p 0) as [| _]; [done |].
  destruct (Nat.eqb_spec (0 + n1) 0) as [| _]; [lia |]. simpl.
  unfold math_log2. destruct (Rle_dec (0 / INR n1) 0) as [| Hnot]; [done |].
  exfalso. apply Hnot. unfold Rdiv. rewrite Rmult_0_l. apply Rle_refl.
Qed.

Lemma foil_gain_raises_on_zero_p1_witness :
  3 ≠ 0 ∧ 2 ≠ 0 ∧ foil_gain 3 2 0 2 = Err ValueError.
Proof.
  assert (Hp : 3 ≠ 0) by lia. assert (Hn1 : 2 ≠ 0) by lia.
  split; [exact Hp | split; [exact Hn1 |]].
  exact (foil_gain_raises_on_zero_p1 3 2 2 Hp Hn1).
Defined.

Lemma foil_gain_demo_err : foil_gain 3 2 0 2 = Err ValueError.
Proof.
  unfold foil_gain. simpl. unfold math_log2.
  destruct (Rle_dec _ 0) as [| Hnot]; [done |].
  exfalso. apply Hnot. unfold Rdiv. rewrite Rmult_0_l. apply Rle_refl.
Qed.

Lemma foil_gain_demo_bird_ok : ∃ g, foil_gain 3 2 3 0 = Ok g.
Proof.
  unfold foil_gain, math_log2.
  assert (Hpos : ∀ a b : nat, a ≠ 0 → b ≠ 0 → ¬ (INR a / INR b <= 0)%R).
  { intros a b Ha Hb Hle. apply (Rlt_not_le _ _ (Rdiv_lt_0_compat _ _ (lt_0_INR a ltac:(lia))
                                                                 (lt_0_INR b ltac:(lia)))).
    exact Hle. }
  repeat match goal with
  | |- context [Rle_dec (INR ?a / INR ?b) 0] =>
      destruct (Rle_dec (INR a / INR b) 0) as [Hle | _];
      [exfalso; exact (Hpos a b ltac:(simpl; lia) ltac:(simpl; lia) Hle) |]
  end.
  eexists. reflexivity.
Qed.

(** An exception while scoring a candidate propagates out of the scan. *)
Lemma scan_candidates_err_here bg var p n pc nc pred cands st p1 n1 err :
  length (filter (λ e, (pred, e.2) ∈ bg) pc) = p1 →
  length (filter (λ e, (pred, e.2) ∈ bg) nc) = n1 →
  foil_gain p n p1 n1 = Err err →
  scan_candidates bg var p n pc nc (pred :: cands) st = Err err.
Proof. intros H1 H2 Hg. simpl. rewrite H1, H2, Hg. reflexivity. Qed.

Lemma scan_candidates_err_later bg var p n pc nc pred cands st p1 n1 g err :
  length (filter (λ e, (pred, e.2) ∈ bg) pc) = p1 →
  length (filter (λ e, (pred, e.2) ∈ bg) nc) = n1 →
  foil_gain p n p1 n1 = Ok g →
  (∀ st', scan_candidates bg var p n pc nc cands st' = Err err) →
  scan_candidates bg var p n pc nc (pred :: cands) st = Err err.
Proof. intros H1 H2 Hg Hrest. simpl. rewrite H1, H2, Hg. apply Hrest. Qed.

Lemma refine_body_scan_err fuel bg preds var body pc nc err :
  nc ≠ [] →
  scan_candidates bg var (length pc) (length nc) pc nc
    (filter (λ pred, pred ∉ map fst body) preds) best_init = Err err →
  refine_body (S fuel) bg preds var body pc nc = Err err.
Proof. destruct nc as [|e nc]; [done |]. intros _ H. cbn [refine_body]. rewrite H. reflexivity. Qed.

Lemma learn_loop_refine_err fuel bg preds e0 pos' neg rules err :
  refine_body (S fuel) bg preds "X" []
    (filter (λ e, e.1 = e0.1) (e0 :: pos')) (filter (λ e, e.1 = e0.1) neg) = Err err →
  learn_loop (S fuel) bg preds (e0 :: pos') neg rules = Err err.
Proof.
  intros H. cbn [learn_loop].
  match goal with
  | |- match ?m with _ => _ end = _ =>
      assert (E : m = Err err) by exact H; rewrite E; reflexivity
  end.
Qed.

Ltac eval_closed t := let t' := eval vm_compute in t in change t with t'.

(** Claim C3 (code bug): on the module's own example, whatever the
    iteration order of the predicate set [{Bird, Mammal}], [learn_rules]
    raises [ValueError]: scoring [Mammal] against the three positives and
    two negatives calls [foil_gain(3, 2, 0, 2)] (see claim C2). *)
Theorem learn_rules_demo_raises (fuel : nat) :
  learn_rules (S fuel) demo_pos demo_neg demo_background ["Bird"; "Mammal"] = Err ValueError ∧
  learn_rules (S fuel) demo_pos demo_neg demo_background ["Mammal"; "Bird"] = Err ValueError.
Proof.
  destruct foil_gain_demo_bird_ok as [g Hg].
  split; unfold learn_rules, demo_pos; apply learn_loop_refine_err;
    match goal with |- refine_body _ _ _ _ _ ?pc ?nc = _ => eval_closed pc; eval_closed nc end;
    (apply refine_body_scan_err; [discriminate |]);
    match goal with |- scan_candidates _ _ _ _ _ _ ?c _ = _ => eval_closed c end.
  - (* [Bird] is scored first (gain [g]); then [Mammal] raises *)
    apply (scan_candidates_err_later _ _ _ _ _ _ _ _ _ 3 0 g);
      [vm_compute; reflexivity | vm_compute; reflexivity | exact Hg |].
    intros st'. apply (scan_candidates_err_here _ _ _ _ _ _ _ _ _ 0 2);
      [vm_compute; reflexivity | vm_compute; reflexivity | exact foil_gain_demo_err].
  - (* [Mammal] is scored first and raises *)
    apply (scan_candidates_err_here _ _ _ _ _ _ _ _ _ 0 2);
      [vm_compute; reflexivity | vm_compute; reflexivity | exact foil_gain_demo_err].
Qed.

End InductionFacts.

(* ================================================================= *)
(** ** Further properties of PropDeduction.py *)

Module DeductionMore.
Import Deduction DeductionFacts.

Lemma negate_ne l : negate l ≠ l.
Proof.
  intros H. apply (f_equal String.length) in H. revert H.
  destruct l as [|c rest]; simpl; [lia |].
  destruct (Ascii.eqb c "~"); simpl; lia.
Qed.

Lemma resolve_subset ci cj r : r ∈ resolve ci cj → r ⊆ ci ∪ cj.
Proof.
  unfold resolve. rewrite resolve_cons_spec. intros (l & _ & _ & ->). set_solver.
Qed.

(** A round over a clause set with no resolvents ends the loop with
    [False]. *)
Lemma entails_loop_no_resolvents fuel cls new :
  new ⊆ cls → (∀ r, ¬ is_resolvent cls r) → entails_loop (S fuel) cls new = Some false.
Proof.
  intros Hnew Hnone. simpl.
  destruct (scan_pairs (pairs cls) new) as [n|] eqn:Hscan.
  - pose proof (round_new _ _ _ Hscan) as Hn.
    rewrite decide_True; [done |].
    intros x Hx. apply Hn in Hx as [? | Hx]; [set_solver | by destruct (Hnone x)].
  - apply round_empty in Hscan as (r & Hr & _). by destruct (Hnone r).
Qed.

(** Extra fuel does not change an answer that has been reached. *)
Lemma entails_loop_more_fuel (fuel fuel' : nat) cls new b :
  (fuel ≤ fuel')%nat → entails_loop fuel cls new = Some b → entails_loop fuel' cls new = Some b.
Proof.
  revert fuel' cls new. induction fuel as [|fuel IH]; intros fuel' cls new Hle; simpl;
    [discriminate |].
  destruct fuel' as [|fuel']; [lia |]. simpl.
  destruct (scan_pairs (pairs cls) new); [| done].
  case_decide; [done |]. apply IH. lia.
Qed.

(** Empty knowledge base: whatever the query, [resolution_entails]
    answers [False] in its first round (the negated query alone has no
    partner to resolve with). *)
Theorem resolution_entails_empty_kb fuel (q : string) :
  resolution_entails (S fuel) ∅ q = Some false.
Proof.
  unfold resolution_entails. apply entails_loop_no_resolvents; [set_solver |].
  intros r (ci & cj & Hci & Hcj & Hne & _). set_solver.
Qed.

(** A query that is a unit clause of the knowledge base is entailed:
    [{q}] and the negated query [{negate q}] resolve to the empty clause
    in the first round. *)
Theorem resolution_entails_unit_clause fuel (kb : gset (gset string)) (q : string)
    (Hq : {[q]} ∈ kb) :
  resolution_entails (S fuel) kb q = Some true.
Proof.
  unfold resolution_entails. simpl.
  destruct (scan_pairs (pairs _) ∅) eqn:Hscan; [| done]. exfalso.
  assert (Hr : is_resolvent (kb ∪ {[{[negate q]}]}) ∅).
  { exists {[q]}, {[negate q]}. split; [set_solver |]. split; [set_solver |].
    split.
    - intros Heq. apply (negate_ne q). symmetry.
      assert (Hin : q ∈ ({[negate q]} : gset string)) by (rewrite <- Heq; set_solver).
      by apply elem_of_singleton in Hin.
    - unfold resolve. apply resolve_cons_spec. exists q.
      split; [apply elem_of_elements; set_solver |]. split; [set_solver |]. apply leibniz_equiv. set_solver. }
  assert (scan_pairs (pairs (kb ∪ {[{[negate q]}]})) ∅ = None) as Hnone.
  { apply round_empty. exists ∅. split; [done |]. apply size_empty. }
  congruence.
Qed.

Lemma resolution_entails_unit_clause_witness :
  {["A"]} ∈ ({[ {["A"]}; {["~A"; "B"]} ]} : gset (gset string)) ∧
  resolution_entails 1 {[ {["A"]}; {["~A"; "B"]} ]} "A" = Some true.
Proof.
  assert (Hq : {["A"]} ∈ ({[ {["A"]}; {["~A"; "B"]} ]} : gset (gset string))) by set_solver.
  split; [exact Hq | exact (resolution_entails_unit_clause 0 _ "A" Hq)].
Defined.

Lemma subsets_complete (ls : list string) (X : gset string) :
  X ⊆ list_to_set ls → X ∈ subsets ls.
Proof.
  revert X. induction ls as [|x xs IH]; intros X HX; simpl.
  - assert (X = ∅) as -> by (apply leibniz_equiv; set_solver). by left.
  - apply elem_of_app. destruct (decide (x ∈ X)) as [Hx | Hx].
    + right. apply list_elem_of_In, in_map_iff. exists (X ∖ {[x]}). split.
      * apply leibniz_equiv. intros y. rewrite elem_of_union, elem_of_difference,
          elem_of_singleton. destruct (decide (y = x)); set_solver.
      * apply list_elem_of_In, IH. simpl in HX. set_solver.
    + left. apply IH. simpl in HX. set_solver.
Qed.

Lemma length_subsets (ls : list string) : length (subsets ls) = 2 ^ length ls.
Proof.
  induction ls as [|x xs IH]; simpl; [done |].
  rewrite length_app, length_map, IH. lia.
Qed.

(** Over a vocabulary [L] there are at most [2 ^ size L] clauses. *)
Lemma clauses_size_bound (cls : gset (gset string)) (L : gset string) :
  (∀ c, c ∈ cls → c ⊆ L) → (size cls ≤ 2 ^ size L)%nat.
Proof.
  intros Hsub. unfold size, set_size. simpl. rewrite <- length_subsets.
  apply NoDup_incl_length; [apply NoDup_ListNoDup, NoDup_elements |].
  intros c Hc. apply list_elem_of_In in Hc. apply list_elem_of_In, subsets_complete.
  rewrite list_to_set_elements_L. apply Hsub. by apply elem_of_elements.
Qed.

Lemma entails_loop_terminates (L : gset string) fuel cls new :
  (∀ c, c ∈ cls → c ⊆ L) → new ⊆ cls → (2 ^ size L < fuel + size cls)%nat →
  entails_loop fuel cls new ≠ None.
Proof.
  revert cls new. induction fuel as [|fuel IH]; intros cls new Hsub Hnew Hbound.
  - pose proof (clauses_size_bound cls L Hsub). lia.
  - simpl. destruct (scan_pairs (pairs cls) new) as [n|] eqn:Hscan; [| done].
    pose proof (round_new _ _ _ Hscan) as Hn.
    case_decide as Hfix; [done |].
    apply IH.
    + intros c. rewrite elem_of_union. intros [Hc | Hc]; [by apply Hsub |].
      apply Hn in Hc as [Hc | (ci & cj & Hci & Hcj & _ & Hr)]; [apply Hsub; set_solver |].
      apply resolve_subset in Hr. pose proof (Hsub ci Hci). pose proof (Hsub cj Hcj).
      set_solver.
    + set_solver.
    + assert (size cls < size (cls ∪ n))%nat; [| lia].
      apply subset_size. set_solver.
Qed.

(** [resolution_entails] always stops: with [L] the literals of the
    knowledge base and of the negated query, at most [2 ^ |L|] rounds are
    run before it answers (the fuel counts rounds).  Each round that does not stop adds a clause
    that was not there before, and every resolvent uses only literals of
    [L]. *)
Theorem resolution_entails_terminates fuel (kb : gset (gset string)) (q : string)
    (Hfuel : (2 ^ size (clause_literals (kb ∪ {[{[negate q]}]})) ≤ fuel)%nat) :
  resolution_entails fuel kb q ≠ None.
Proof.
  unfold resolution_entails. simpl.
  assert (Hne : (0 < size (kb ∪ {[{[negate q]}]}))%nat).
  { rewrite <- (size_empty (C := gset (gset string))). apply subset_size. set_solver. }
  apply (entails_loop_terminates (clause_literals (kb ∪ {[{[negate q]}]}))).
  - intros c Hc x Hx. unfold clause_literals. apply elem_of_union_list.
    exists c. split; [by apply elem_of_elements | done].
  - set_solver.
  - lia.
Qed.

Lemma resolution_entails_terminates_witness :
  (2 ^ size (clause_literals (demo_kb ∪ {[{[negate "A"]}]})) ≤ 128)%nat ∧
  resolution_entails 128 demo_kb "A" ≠ None.
Proof.
  assert (H : (2 ^ size (clause_literals (demo_kb ∪ {[{[negate "A"]}]})) ≤ 128)%nat)
    by (apply Nat.leb_le; vm_compute; reflexivity).
  split; [exact H | exact (resolution_entails_terminates 128 demo_kb "A" H)].
Defined.

(** Any knowledge base containing the clauses [A ∨ B] and [~A ∨ ~B]
    makes [resolution_entails] answer [True] for every query, after at
    most three rounds.  Resolving these two clauses on one atom removes that
    atom and its negation from the union, which leaves the complementary
    pair of the other atom, [{B, ~B}] or [{A, ~A}].  Resolving such a clause
    on [B] with [~A ∨ ~B] removes both [B] and [~B] and gives [{~A}].
    Then [{~A}] and [{A, ~A}] resolve to the empty clause.  The knowledge
    base itself can be satisfiable ([A] true, [B] false). *)
Theorem resolution_entails_complementary_pair fuel (kb : gset (gset string)) (q : string)
    (HAB : {["A"; "B"]} ∈ kb) (HnAnB : {["~A"; "~B"]} ∈ kb) (Hfuel : (3 ≤ fuel)%nat) :
  resolution_entails fuel kb q = Some true.
Proof.
  assert (Hbase : entails_loop 3 complementary_pair_kb ∅ = Some true)
    by (vm_compute; reflexivity).
  apply (entails_loop_more_fuel _ fuel) in Hbase; [| lia].
  unfold resolution_entails. simpl.
  apply (entails_loop_mono _ complementary_pair_kb ∅); [set_solver | | exact Hbase].
  unfold complementary_pair_kb. set_solver.
Qed.

Lemma resolution_entails_complementary_pair_witness :
  let kb : gset (gset string) := {[ {["A"; "B"]}; {["~A"; "~B"]} ]} in
  {["A"; "B"]} ∈ kb ∧ {["~A"; "~B"]} ∈ kb ∧ (3 ≤ 3)%nat ∧
  resolution_entails 3 kb "C" = Some true ∧
  (* the assignment A = true, B = false, C = false satisfies kb, not C *)
  let v := λ a : string, bool_decide (a = "A") in
  (∀ c, c ∈ kb → clause_holds v c) ∧ lit_holds v "C" = false.
Proof.
  intros kb.
  assert (HAB : {["A"; "B"]} ∈ kb) by set_solver.
  assert (HnAnB : {["~A"; "~B"]} ∈ kb) by set_solver.
  assert (Hf : (3 ≤ 3)%nat) by lia.
  split; [exact HAB | split; [exact HnAnB | split; [exact Hf | split]]].
  - exact (resolution_entails_complementary_pair 3 kb "C" HAB HnAnB Hf).
  - intros v. split; [| reflexivity].
    intros c Hc. unfold kb in Hc. apply elem_of_union in Hc as [Hc | Hc];
      apply elem_of_singleton in Hc as ->.
    + exists "A". split; [set_solver | reflexivity].
    + exists "~B". split; [set_solver | reflexivity].
Defined.

End DeductionMore.

(* ================================================================= *)
(** ** Further properties of [abduce] *)

Module AbductionMore.
Import Abduction AbductionFacts.

Lemma derives_n_mono_E kb E E' n g :
  derives_n kb E n g → E ⊆ E' → derives_n kb E' n g.
Proof.
  intros Hd HE. induction Hd as [n g Hg | n g bs Hc Hbs IH].
  - apply derives_assumed. set_solver.
  - eapply derives_clause; [exact Hc | exact IH].
Qed.

Lemma derives_n_mono_n kb E n m g :
  derives_n kb E n g → (n ≤ m)%nat → derives_n kb E m g.
Proof.
  intros Hd. revert m. induction Hd as [n g Hg | n g bs Hc Hbs IH]; intros m Hm.
  - by apply derives_assumed.
  - destruct m as [|m]; [lia |].
    eapply derives_clause; [exact Hc |]. intros b Hb. apply IH; [done | lia].
Qed.

Lemma derives_list kb E (bs : list string) :
  (∀ b, b ∈ bs → ∃ n, derives_n kb E n b) → ∃ N, ∀ b, b ∈ bs → derives_n kb E N b.
Proof.
  induction bs as [|b0 bs IH]; intros H.
  - exists 0. intros b Hb. inversion Hb.
  - destruct (H b0) as [n0 H0]; [left |].
    destruct IH as [N HN]; [intros b Hb; apply H; by right |].
    exists (Nat.max n0 N). intros b Hb. apply elem_of_cons in Hb as [-> | Hb].
    + eapply derives_n_mono_n; [exact H0 | lia].
    + eapply derives_n_mono_n; [exact (HN b Hb) | lia].
Qed.

Lemma elem_of_product_unions_cons m exs rest :
  m ∈ product_unions (exs :: rest) ↔
  ∃ e m', e ∈ exs ∧ m' ∈ product_unions rest ∧ m = e ∪ m'.
Proof.
  simpl. rewrite list_elem_of_In, in_flat_map. split.
  - intros (e & He & Hm). apply in_map_iff in Hm as (m' & <- & Hm').
    exists e, m'. by rewrite !list_elem_of_In.
  - intros (e & m' & He & Hm' & ->). exists e. rewrite <- list_elem_of_In.
    split; [done |]. apply in_map_iff. exists m'. by rewrite <- list_elem_of_In.
Qed.

(** Each combination contains one explanation of every sub-goal. *)
Lemma product_unions_sub m subs :
  m ∈ product_unions subs → ∀ i sub, subs !! i = Some sub → ∃ e, e ∈ sub ∧ e ⊆ m.
Proof.
  revert m. induction subs as [|exs rest IH]; intros m Hm i sub Hi; [done |].
  apply elem_of_product_unions_cons in Hm as (e & m' & He & Hm' & ->).
  destruct i as [|i]; simpl in Hi.
  - injection Hi as <-. exists e. split; [done | set_solver].
  - destruct (IH m' Hm' i sub Hi) as (e' & He' & Hsub). exists e'.
    split; [done | set_solver].
Qed.

Lemma product_unions_bound m subs (A : gset string) :
  m ∈ product_unions subs → (∀ sub e, sub ∈ subs → e ∈ sub → e ⊆ A) → m ⊆ A.
Proof.
  revert m. induction subs as [|exs rest IH]; intros m Hm HA.
  - simpl in Hm. apply elem_of_cons in Hm as [-> | Hm]; [set_solver | inversion Hm].
  - apply elem_of_product_unions_cons in Hm as (e & m' & He & Hm' & ->).
    apply union_least.
    + apply (HA exs); [left | done].
    + apply IH; [done |]. intros sub e' Hs He'. apply (HA sub); [by right | done].
Qed.

Lemma product_unions_exists subs (E : gset string) :
  (∀ sub, sub ∈ subs → ∃ e, e ∈ sub ∧ e ⊆ E) → ∃ m, m ∈ product_unions subs ∧ m ⊆ E.
Proof.
  induction subs as [|exs rest IH]; intros H.
  - exists ∅. split; [left | set_solver].
  - destruct (H exs) as (e & He & HeE); [left |].
    destruct IH as (m' & Hm' & Hm'E); [intros sub Hs; apply H; by right |].
    exists (e ∪ m'). split; [| set_solver].
    apply elem_of_product_unions_cons. by exists e, m'.
Qed.

Lemma Forall2_elem_r {A B} (P : A → B → Prop) l k y :
  Forall2 P l k → y ∈ k → ∃ x, x ∈ l ∧ P x y.
Proof.
  induction 1 as [|x y' l k Hxy _ IH]; intros Hy; [inversion Hy |].
  apply elem_of_cons in Hy as [-> | Hy].
  - exists x. split; [left | done].
  - destruct (IH Hy) as (x' & Hx' & HP). exists x'. split; [by right | done].
Qed.

(** Where an explanation derived through the clauses comes from. *)
Lemma clause_loop_inv rec goal cls derived d :
  clause_loop rec goal cls = Some derived → d ∈ derived →
  ∃ bs subs, HC goal bs ∈ cls ∧ mapM rec bs = Some subs ∧ d ∈ product_unions subs.
Proof.
  revert derived. induction cls as [|[h bs] cls IH]; intros derived; simpl.
  - intros [= <-] Hd. inversion Hd.
  - case_decide as Hh; simpl in Hh.
    + destruct (mapM rec bs) as [subs|] eqn:Hm; simpl; [| discriminate].
      destruct (clause_loop rec goal cls) as [rest|] eqn:Hl; simpl; [| discriminate].
      assert (Hrest : d ∈ rest → ∃ bs0 subs0, HC goal bs0 ∈ HC h bs :: cls ∧
          mapM rec bs0 = Some subs0 ∧ d ∈ product_unions subs0).
      { intros Hd. destruct (IH rest eq_refl Hd) as (bs' & subs' & Hc & Hm' & Hp).
        exists bs', subs'. split; [by right | done]. }
      destruct (existsb _ subs); intros [= <-] Hd; [by apply Hrest |].
      apply elem_of_app in Hd as [Hd | Hd]; [| by apply Hrest].
      exists bs, subs. subst h. split; [left | done].
    + intros Hl Hd. destruct (IH derived Hl Hd) as (bs' & subs' & Hc & Hm' & Hp).
      exists bs', subs'. split; [by right | done].
Qed.

(** A clause for [goal] whose body atoms all have an explanation inside [E]
    contributes an explanation inside [E]. *)
Lemma clause_loop_complete rec goal cls derived bs (E : gset string) :
  clause_loop rec goal cls = Some derived → HC goal bs ∈ cls →
  (∀ b es, b ∈ bs → rec b = Some es → ∃ e, e ∈ es ∧ e ⊆ E) →
  ∃ d, d ∈ derived ∧ d ⊆ E.
Proof.
  intros Hloop Hin Hrec. revert derived Hloop.
  induction cls as [|[h bs'] cls IH]; intros derived Hloop; [inversion Hin |].
  simpl in Hloop. apply elem_of_cons in Hin as [Heq | Hin].
  - injection Heq as <- <-. rewrite decide_True in Hloop by done.
    destruct (mapM rec bs) as [subs|] eqn:Hm; simpl in Hloop; [| discriminate].
    destruct (clause_loop rec goal cls) as [rest|]; simpl in Hloop; [| discriminate].
    apply mapM_Some_1 in Hm.
    assert (Hsubs : ∀ sub, sub ∈ subs → ∃ e, e ∈ sub ∧ e ⊆ E).
    { intros sub Hs. destruct (Forall2_elem_r _ _ _ _ Hm Hs) as (b & Hb & Hrb).
      exact (Hrec b sub Hb Hrb). }
    destruct (existsb (λ exs, Nat.eqb (length exs) 0) subs) eqn:Hex.
    + apply existsb_exists in Hex as (sub & Hs & Hlen).
      apply Nat.eqb_eq, length_zero_iff_nil in Hlen as ->.
      apply list_elem_of_In in Hs. destruct (Hsubs [] Hs) as (e & He & _).
      inversion He.
    + injection Hloop as <-. destruct (product_unions_exists subs E Hsubs) as (m & Hm' & HmE).
      exists m. split; [apply elem_of_app; by left | done].
  - destruct (decide (h = goal)).
    + destruct (mapM rec bs') as [subs|]; simpl in Hloop; [| discriminate].
      destruct (clause_loop rec goal cls) as [rest|]; simpl in Hloop; [| discriminate].
      destruct (IH Hin rest eq_refl) as (d & Hd & HdE).
      destruct (existsb _ subs); injection Hloop as <-; exists d; split; try done.
      apply elem_of_app. by right.
    + exact (IH Hin derived Hloop).
Qed.

Lemma abduce_sound_gen kb ab fuel : ∀ g seen es,
  abduce fuel g kb ab seen = Some es →
  ∀ e, e ∈ es → e ⊆ ab ∧ ∃ n, derives_n kb e n g.
Proof.
  induction fuel as [|fuel IH]; intros g seen es Habd e He; simpl in Habd; [discriminate |].
  case_decide as Hseen.
  { injection Habd as <-. inversion He. }
  destruct (clause_loop _ g kb) as [derived|] eqn:Hloop; simpl in Habd; [| discriminate].
  injection Habd as <-. apply elem_of_prune_minimal in He as [He _].
  apply elem_of_app in He as [He | He].
  - case_decide as Hab; [| inversion He].
    apply list_elem_of_singleton in He as ->. split; [set_solver |].
    exists 0. apply derives_assumed. set_solver.
  - destruct (clause_loop_inv _ _ _ _ _ Hloop He) as (bs & subs & Hc & Hm & Hp).
    apply mapM_Some_1 in Hm. split.
    + apply (product_unions_bound e subs ab Hp). intros sub e' Hs He'.
      destruct (Forall2_elem_r _ _ _ _ Hm Hs) as (b & _ & Hrb).
      exact (proj1 (IH _ _ _ Hrb e' He')).
    + destruct (derives_list kb e bs) as [N HN].
      { intros b Hb. apply list_elem_of_lookup_1 in Hb as [i Hi].
        destruct (Forall2_lookup_l _ _ _ _ _ Hm Hi) as (sub & Hsub & Hrb).
        destruct (product_unions_sub e subs Hp i sub Hsub) as (e' & He' & He'e).
        destruct (proj2 (IH _ _ _ Hrb e' He')) as [n Hn].
        exists n. exact (derives_n_mono_E _ _ _ _ _ Hn He'e). }
      exists (S N). exact (derives_clause _ _ N g bs Hc HN).
Qed.

(** Soundness of [abduce]: every explanation it returns is a set of
    abducibles from which the goal is derivable with the clauses of the
    knowledge base. *)
Theorem abduce_sound fuel goal kb abducibles es e
    (Hres : abduce_top fuel goal kb abducibles = Some es) (He : e ∈ es) :
  e ⊆ abducibles ∧ derives kb e goal.
Proof.
  exact (abduce_sound_gen kb abducibles fuel goal ∅ es Hres e He).
Qed.

Lemma abduce_sound_witness :
  abduce_top 10 "r" demo_kb demo_abducibles = Some [{["t"]}; {["s"]}] ∧
  ({["t"]} : gset string) ∈ [{["t"]}; {["s"]}] ∧
  {["t"]} ⊆ demo_abducibles ∧ derives demo_kb {["t"]} "r".
Proof.
  assert (Hres : abduce_top 10 "r" demo_kb demo_abducibles = Some [{["t"]}; {["s"]}])
    by (vm_compute; reflexivity).
  assert (He : ({["t"]} : gset string) ∈ [{["t"]}; {["s"]}]) by left.
  split; [exact Hres | split; [exact He |]].
  exact (abduce_sound 10 "r" demo_kb demo_abducibles _ _ Hres He).
Defined.

(** Every element of a list has a minimal element of the list below it. *)
Lemma prune_minimal_below (l : list (gset string)) x :
  x ∈ l → ∃ y, y ∈ prune_minimal l ∧ y ⊆ x.
Proof.
  remember (size x) as k eqn:Hk. revert x Hk.
  induction k as [k IHk] using (well_founded_induction lt_wf). intros x Hk Hx.
  destruct (existsb (λ other, bool_decide (other ⊂ x)) l) eqn:Hex.
  - apply existsb_exists in Hex as (other & Ho & Hlt).
    apply bool_decide_eq_true in Hlt. apply list_elem_of_In in Ho.
    destruct (IHk (size other)) with (x := other) as (y & Hy & Hyo);
      [subst k; by apply subset_size | done | done |].
    exists y. split; [done | set_solver].
  - exists x. split; [| done]. unfold prune_minimal.
    apply list_elem_of_filter. split; [exact Hex | exact Hx].
Qed.

Lemma abduce_complete_gen kb ab (E : gset string) (HE : E ⊆ ab) n :
  ∀ fuel g seen es, derives_n kb E n g →
  (∀ s, s ∈ seen → ¬ derives_n kb E n s) →
  abduce fuel g kb ab seen = Some es → ∃ e, e ∈ es ∧ e ⊆ E.
Proof.
  induction n as [n IHn] using (well_founded_induction lt_wf).
  intros fuel g seen es Hd Hseen Habd.
  assert (Hg : g ∉ seen) by (intros Hg; exact (Hseen g Hg Hd)).
  assert (Hstep : ∀ x, x ∈ match fuel with O => [] | S fuel' =>
      (if decide (g ∈ ab) then [{[g]}] else []) ++
      default [] (clause_loop (λ b, abduce fuel' b kb ab (seen ∪ {[g]})) g kb) end →
      x ⊆ E → ∃ e, e ∈ es ∧ e ⊆ E).
  { intros x Hx HxE. destruct fuel as [|fuel]; [inversion Hx |].
    simpl in Habd. rewrite decide_False in Habd by done.
    destruct (clause_loop _ g kb) as [derived|]; simpl in Habd, Hx; [| discriminate].
    injection Habd as <-. destruct (prune_minimal_below _ _ Hx) as (y & Hy & Hyx).
    exists y. split; [done | set_solver]. }
  destruct Hd as [n g HgE | m g bs Hc Hbs].
  - destruct fuel as [|fuel]; [discriminate |].
    apply (Hstep {[g]}); [| set_solver].
    rewrite decide_True by set_solver. apply elem_of_app. left. left.
  - destruct (Classical_Prop.classic (derives_n kb E m g)) as [Hm | Hm].
    + apply (IHn m ltac:(lia) fuel g seen es Hm); [| exact Habd].
      intros s Hs Hsm. apply (Hseen s Hs). eapply derives_n_mono_n; [exact Hsm | lia].
    + destruct fuel as [|fuel]; [discriminate |].
      pose proof Habd as Habd'. simpl in Habd'. rewrite decide_False in Habd' by done.
      destruct (clause_loop _ g kb) as [derived|] eqn:Hloop; simpl in Habd'; [| discriminate].
      destruct (clause_loop_complete _ _ _ _ bs E Hloop Hc) as (d & Hd & HdE).
      { intros b es_b Hb Hrb. apply (IHn m ltac:(lia) fuel b (seen ∪ {[g]}) es_b (Hbs b Hb));
          [| exact Hrb].
        intros s Hs Hsm. apply elem_of_union in Hs as [Hs | Hs].
        - apply (Hseen s Hs). eapply derives_n_mono_n; [exact Hsm | lia].
        - apply elem_of_singleton in Hs as ->. exact (Hm Hsm). }
      apply (Hstep d); [| exact HdE]. simpl.
      apply elem_of_app. by right.
Qed.

(** Completeness of [abduce]: if the goal is derivable from a set [E] of
    abducibles, some returned explanation is contained in [E].  With
    [abduce_sound] and the pruning, the result is exactly the
    inclusion-minimal sets of abducibles that derive the goal. *)
Theorem abduce_complete fuel goal kb abducibles es (E : gset string)
    (Hres : abduce_top fuel goal kb abducibles = Some es)
    (HE : E ⊆ abducibles) (Hd : derives kb E goal) :
  ∃ e, e ∈ es ∧ e ⊆ E.
Proof.
  destruct Hd as [n Hn].
  apply (abduce_complete_gen kb abducibles E HE n fuel goal ∅ es Hn); [| exact Hres].
  intros s Hs. inversion Hs.
Qed.

Lemma abduce_complete_witness :
  abduce_top 10 "r" demo_kb demo_abducibles = Some [{["t"]}; {["s"]}] ∧
  {["t"]} ⊆ demo_abducibles ∧ derives demo_kb {["t"]} "r" ∧
  ∃ e : gset string, e ∈ [{["t"]}; {["s"]}] ∧ e ⊆ {["t"]}.
Proof.
  assert (Hres : abduce_top 10 "r" demo_kb demo_abducibles = Some [{["t"]}; {["s"]}])
    by (vm_compute; reflexivity).
  assert (HE : ({["t"]} : gset string) ⊆ demo_abducibles)
    by (unfold demo_abducibles; set_solver).
  assert (Hd : derives demo_kb {["t"]} "r").
  { exists 2. apply (derives_clause _ _ 1 "r" ["p"; "q"]); [left |].
    intros b Hb. apply elem_of_cons in Hb as [-> | Hb].
    - apply (derives_clause _ _ 0 "p" ["t"]); [right; right; left |].
      intros b Hb. apply list_elem_of_singleton in Hb as ->.
      apply derives_assumed. set_solver.
    - apply list_elem_of_singleton in Hb as ->.
      apply (derives_clause _ _ 0 "q" []); [right; right; right; left |].
      intros b Hb. inversion Hb. }
  split; [exact Hres | split; [exact HE | split; [exact Hd |]]].
  exact (abduce_complete 10 "r" demo_kb demo_abducibles _ _ Hres HE Hd).
Defined.

Lemma clause_loop_is_Some rec goal cls :
  (∀ clause b, clause ∈ cls → b ∈ body clause → is_Some (rec b)) →
  is_Some (clause_loop rec goal cls).
Proof.
  induction cls as [|clause cls IH]; intros H; simpl; [by eexists |].
  destruct IH as [rest Hrest]; [intros c b Hc Hb; apply (H c b); [by right | done] |].
  case_decide; [| rewrite Hrest; by eexists].
  destruct (mapM_is_Some_2 rec (body clause)) as [subs Hsubs].
  { apply Forall_forall. intros b Hb. apply (H clause b); [left | exact Hb]. }
  rewrite Hsubs, Hrest. simpl. destruct (existsb _ subs); by eexists.
Qed.

Lemma abduce_terminates_gen kb ab (U : gset string) (HU : body_atoms kb ⊆ U) fuel :
  ∀ g seen, g ∈ U → (size (U ∖ seen) < fuel)%nat → is_Some (abduce fuel g kb ab seen).
Proof.
  induction fuel as [|fuel IH]; intros g seen Hg Hfuel; [lia |]. simpl.
  case_decide as Hs; [by eexists |].
  destruct (clause_loop_is_Some (λ b, abduce fuel b kb ab (seen ∪ {[g]})) g kb)
    as [derived Hderived].
  { intros clause b Hc Hb. apply IH.
    - apply HU. unfold body_atoms. apply elem_of_list_to_set, list_elem_of_In, in_concat.
      exists (body clause). split; [apply in_map; by apply list_elem_of_In |
        by apply list_elem_of_In].
    - assert (size (U ∖ (seen ∪ {[g]})) < size (U ∖ seen))%nat; [| lia].
      apply subset_size. set_solver. }
  rewrite Hderived. simpl. by eexists.
Qed.

(** [abduce] always stops: each recursive call adds the current goal to
    [seen] and returns at once on a goal already seen, so the recursion
    depth is at most the number of distinct atoms in the goal and the
    clause bodies. *)
Theorem abduce_terminates fuel goal kb abducibles
    (Hfuel : (size (body_atoms kb ∪ {[goal]}) < fuel)%nat) :
  abduce_top fuel goal kb abducibles ≠ None.
Proof.
  unfold abduce_top.
  destruct (abduce_terminates_gen kb abducibles (body_atoms kb ∪ {[goal]})
    ltac:(set_solver) fuel goal ∅ ltac:(set_solver)) as [es Hes].
  - assert (U_empty : (body_atoms kb ∪ {[goal]}) ∖ ∅ = body_atoms kb ∪ {[goal]})
      by (apply leibniz_equiv; set_solver).
    rewrite U_empty. exact Hfuel.
  - rewrite Hes. discriminate.
Qed.

Lemma abduce_terminates_witness :
  (size (body_atoms demo_kb ∪ {["r"]}) < 6)%nat ∧
  abduce_top 6 "r" demo_kb demo_abducibles ≠ None.
Proof.
  assert (H : (size (body_atoms demo_kb ∪ {["r"]}) < 6)%nat)
    by (apply Nat.ltb_lt; vm_compute; reflexivity).
  split; [exact H | exact (abduce_terminates 6 "r" demo_kb demo_abducibles H)].
Defined.

Lemma clause_loop_no_head rec goal cls :
  (∀ clause, clause ∈ cls → head clause ≠ goal) → clause_loop rec goal cls = Some [].
Proof.
  induction cls as [|clause cls IH]; intros H; simpl; [done |].
  rewrite decide_False by (apply H; left). apply IH. intros c Hc. apply H. by right.
Qed.

(** An atom that heads no clause of the knowledge base is explained only
    by assuming it: [abduce] returns [[{goal}]] when the atom is abducible
    and [[]] otherwise. *)
Theorem abduce_no_clause fuel goal kb abducibles
    (Hnone : ∀ clause, clause ∈ kb → head clause ≠ goal) :
  abduce_top (S fuel) goal kb abducibles =
    Some (if decide (goal ∈ abducibles) then [{[goal]}] else []).
Proof.
  unfold abduce_top. simpl. rewrite decide_False by set_solver.
  rewrite clause_loop_no_head by exact Hnone. simpl.
  case_decide; simpl; [| done].
  unfold prune_minimal. simpl. rewrite filter_cons_True; [done |]. rewrite bool_decide_eq_false_2 by set_solver. done.
Qed.

Lemma abduce_no_clause_witness :
  (∀ clause, clause ∈ demo_kb → head clause ≠ "t") ∧
  abduce_top 1 "t" demo_kb demo_abducibles = Some [{["t"]}].
Proof.
  assert (H : ∀ clause, clause ∈ demo_kb → head clause ≠ "t").
  { intros clause Hc. unfold demo_kb in Hc.
    repeat (apply elem_of_cons in Hc as [-> | Hc]; [simpl; discriminate |]).
    inversion Hc. }
  split; [exact H |]. rewrite (abduce_no_clause 0 "t" demo_kb demo_abducibles H).
  rewrite decide_True by (unfold demo_abducibles; set_solver). reflexivity.
Defined.

(** [abduce_min_cost] returns an empty list only when [abduce] finds no
    explanation at all: the minimum of the totals is the total of some
    explanation, which then passes the [score == min_cost] filter (also
    when that total is [inf], since [inf == inf]). *)
Theorem abduce_min_cost_nonempty fuel goal kb abducibles (cost : gmap string R) all_expls res
    (Habd : abduce_top fuel goal kb abducibles = Some all_expls)
    (Hres : abduce_min_cost fuel goal kb abducibles cost = Some res) :
  res = [] ↔ all_expls = [].
Proof.
  unfold abduce_min_cost in Hres. rewrite Habd in Hres. simpl in Hres.
  destruct all_expls as [|e0 rest]; simpl in Hres; [injection Hres as <-; done |].
  injection Hres as <-. split; [| discriminate]. intros Hnil.
  set (m := py_min (total_cost cost e0)
              (map fst (map (λ expl, (total_cost cost expl, expl)) rest))).
  destruct (py_min_spec (total_cost cost e0)
              (map fst (map (λ expl, (total_cost cost expl, expl)) rest))) as [Hm _].
  fold m in Hm.
  assert (He : ∃ e, e ∈ e0 :: rest ∧ total_cost cost e = m).
  { apply elem_of_cons in Hm as [Hm | Hm].
    - exists e0. split; [left | done].
    - apply scores_elem in Hm as (e & He & Hm). exists e. split; [by right | done]. }
  destruct He as (e & He & Hem).
  assert (Hw : e ∈ map snd (filter (λ '(score, _), ext_eqb score m = true)
                 (map (λ expl, (total_cost cost expl, expl)) (e0 :: rest)))).
  { apply winners_elem. split; [exact He | exact Hem]. }
  unfold m in Hw. simpl in Hw. rewrite Hnil in Hw. inversion Hw.
Qed.

Lemma abduce_min_cost_nonempty_witness :
  abduce_top 10 "r" demo_kb demo_abducibles = Some [{["t"]}; {["s"]}] ∧
  abduce_min_cost 10 "r" demo_kb demo_abducibles ∅ = Some [{["t"]}; {["s"]}] ∧
  (([{["t"]}; {["s"]}] : list (gset string)) = [] ↔
   ([{["t"]}; {["s"]}] : list (gset string)) = []).
Proof.
  assert (Habd : abduce_top 10 "r" demo_kb demo_abducibles = Some [{["t"]}; {["s"]}])
    by (vm_compute; reflexivity).
  assert (Hres : abduce_min_cost 10 "r" demo_kb demo_abducibles ∅ = Some [{["t"]}; {["s"]}]).
  { unfold abduce_min_cost. rewrite Habd. reflexivity. }
  split; [exact Habd | split; [exact Hres |]].
  exact (abduce_min_cost_nonempty 10 "r" demo_kb demo_abducibles ∅ _ _ Habd Hres).
Defined.

End AbductionMore.

(* ================================================================= *)
(** ** Further properties of [foil_gain] and [learn_rules] *)

Module InductionMore.
Import Induction InductionFacts.

Lemma foil_gain_err_value p n p1 n1 e : foil_gain p n p1 n1 = Err e → e = ValueError.
Proof.
  unfold foil_gain, math_log2.
  destruct (_ || _); [discriminate |].
  destruct (Rle_dec _ 0); [simpl; congruence |].
  destruct (Rle_dec _ 0); simpl; congruence.
Qed.

(** A strictly positive gain needs a literal that keeps some positive example. *)
Lemma foil_gain_pos_p1 p n p1 n1 g : foil_gain p n p1 n1 = Ok g → (0 < g)%R → p1 ≠ 0.
Proof.
  intros H Hg ->. unfold foil_gain in H.
  destruct (Nat.eqb_spec p 0) as [-> | Hp]; simpl in H.
  - injection H as <-. exact (Rlt_irrefl _ Hg).
  - destruct (Nat.eqb_spec n1 0) as [-> | Hn1]; simpl in H.
    + injection H as <-. exact (Rlt_irrefl _ Hg).
    + unfold math_log2 in H. destruct (Rle_dec _ 0) as [| Hnot] in H; [discriminate |].
      apply Hnot. unfold Rdiv. rewrite Rmult_0_l. apply Rle_refl.
Qed.

Lemma ratio_pos (a b : nat) : a ≠ 0 → (a ≤ b)%nat → ¬ (INR a / INR b <= 0)%R.
Proof.
  intros Ha Hab Hle.
  apply (Rlt_not_le _ _ (Rdiv_lt_0_compat _ _ (lt_0_INR a ltac:(lia)) (lt_0_INR b ltac:(lia)))).
  exact Hle.
Qed.

(** [foil_gain] returns a number in every case but one: [p <> 0], [p1 = 0]
    and [n1 <> 0], where it raises (claim C2).  In particular the two
    [math.log2] calls never see a non-positive argument otherwise. *)
Theorem foil_gain_returns p n p1 n1 (H : p = 0 ∨ p1 ≠ 0 ∨ n1 = 0) :
  ∃ g, foil_gain p n p1 n1 = Ok g.
Proof.
  unfold foil_gain.
  destruct (Nat.eqb_spec p 0) as [Hp | Hp]; [by eexists |].
  destruct (Nat.eqb_spec (p1 + n1) 0) as [Hs | Hs]; [by eexists |]. simpl.
  unfold math_log2.
  destruct (Rle_dec (INR p1 / INR (p1 + n1)) 0) as [Hle | _].
  { exfalso. exact (ratio_pos p1 (p1 + n1) ltac:(lia) ltac:(lia) Hle). }
  destruct (Rle_dec (INR p / INR (p + n)) 0) as [Hle | _].
  { exfalso. exact (ratio_pos p (p + n) ltac:(lia) ltac:(lia) Hle). }
  by eexists.
Qed.

Lemma foil_gain_returns_witness :
  (3 = 0 ∨ 3 ≠ 0 ∨ 0 = 0) ∧ ∃ g, foil_gain 3 2 3 0 = Ok g.
Proof.
  assert (H : 3 = 0 ∨ 3 ≠ 0 ∨ 0 = 0) by (right; left; lia).
  split; [exact H | exact (foil_gain_returns 3 2 3 0 H)].
Defined.

Lemma scan_candidates_err bg var p n pc nc cands st e :
  scan_candidates bg var p n pc nc cands st = Err e → e = ValueError.
Proof.
  revert st. induction cands as [|pred cands IH]; intros st H; simpl in H; [discriminate |].
  destruct (foil_gain _ _ _ _) eqn:Hg; simpl in H; [exact (IH _ H) |].
  injection H as <-. exact (foil_gain_err_value _ _ _ _ _ Hg).
Qed.

(** The scan either keeps its state or ends on a candidate of the list
    whose gain beats the initial best gain. *)
Lemma scan_candidates_inv bg var p n pc nc cands st st' :
  scan_candidates bg var p n pc nc cands st = Ok st' →
  st' = st ∨ ∃ pred, pred ∈ cands ∧ best_literal st' = Some (pred, var) ∧
    best_pos_cover st' = filter (λ e, (pred, e.2) ∈ bg) pc ∧
    best_neg_cover st' = filter (λ e, (pred, e.2) ∈ bg) nc ∧
    foil_gain p n (length (best_pos_cover st')) (length (best_neg_cover st')) = Ok (best_gain st') ∧
    (best_gain st < best_gain st')%R.
Proof.
  revert st. induction cands as [|pred cands IH]; intros st H; simpl in H.
  - injection H as <-. by left.
  - destruct (foil_gain p n (length (filter _ pc)) _) as [gain|] eqn:Hg; simpl in H; [| discriminate].
    apply IH in H. destruct (Rlt_dec (best_gain st) gain) as [Hlt | Hge].
    + right. destruct H as [-> | (pred' & Hp' & Hl & Hpc & Hnc & Hg' & Hlt')].
      * exists pred. simpl. split; [left | done].
      * exists pred'. split; [by right |]. do 4 (split; [done |]).
        simpl in Hlt'. exact (Rlt_trans _ _ _ Hlt Hlt').
    + destruct H as [-> | (pred' & Hp' & Hl & Hpc & Hnc & Hg' & Hlt')]; [by left |].
      right. exists pred'. split; [by right | done].
Qed.

(** One step of the inner loop: the chosen literal is [(pred, var)] for a
    predicate not yet in the body, and it keeps some positive example. *)
Lemma refine_step bg preds var (body : list Literal) pc nc st (lit : Literal) :
  scan_candidates bg var (length pc) (length nc) pc nc
    (filter (λ pred, pred ∉ map fst body) preds) best_init = Ok st →
  best_literal st = Some lit →
  lit.2 = var ∧ lit.1 ∈ preds ∧ (lit.1 ∉ map fst body) ∧
  best_pos_cover st = filter (λ e, (lit.1, e.2) ∈ bg) pc ∧ best_pos_cover st ≠ [].
Proof.
  intros Hscan Hlit.
  destruct (scan_candidates_inv _ _ _ _ _ _ _ _ _ Hscan)
    as [-> | (pred & Hpred & Hl & Hpc & Hnc & Hg & Hlt)]; [discriminate |].
  rewrite Hl in Hlit. injection Hlit as <-. simpl.
  apply list_elem_of_filter in Hpred as [Hnot Hin].
  do 4 (split; [done |]).
  intros Hnil. apply (foil_gain_pos_p1 _ _ _ _ _ Hg Hlt). rewrite Hnil. done.
Qed.

Lemma nodup_snoc_fst (body : list Literal) (lit : Literal) :
  NoDup (map fst body) → lit.1 ∉ map fst body → NoDup (map fst (body ++ [lit])).
Proof.
  intros Hnd Hn. rewrite map_app. apply NoDup_app.
  split; [done | split; [| apply NoDup_singleton]].
  intros x Hx Hx'. apply list_elem_of_singleton in Hx' as ->. done.
Qed.

Lemma refine_body_shape fuel bg preds var body pc nc body' :
  refine_body fuel bg preds var body pc nc = Ok body' →
  NoDup (map fst body) → (∀ lit, lit ∈ body → lit.1 ∈ preds ∧ lit.2 = var) →
  NoDup (map fst body') ∧ (∀ lit, lit ∈ body' → lit.1 ∈ preds ∧ lit.2 = var).
Proof.
  revert body pc nc. induction fuel as [|fuel IH]; intros body pc nc Hr Hnd Hl; [discriminate |].
  destruct nc as [|e0 nc]; cbn [refine_body] in Hr; [injection Hr as <-; done |].
  destruct (scan_candidates _ _ _ _ _ _ _ _) as [st|err] eqn:Hscan; [| discriminate].
  destruct (best_literal st) as [lit|] eqn:Hlit; [| injection Hr as <-; done].
  destruct (refine_step _ _ _ _ _ _ _ _ Hscan Hlit) as (Hv & Hp & Hn & _).
  apply (IH _ _ _ Hr); [by apply nodup_snoc_fst |].
  intros l Hl'. apply elem_of_app in Hl' as [Hl' | Hl']; [by apply Hl |].
  apply list_elem_of_singleton in Hl' as ->. done.
Qed.

(** The final body is satisfied by some positive example of the initial
    cover (the cover shrinks but never becomes empty). *)
Lemma refine_body_covers fuel bg preds var body pc nc body' :
  refine_body fuel bg preds var body pc nc = Ok body' → pc ≠ [] →
  (∀ e, e ∈ pc → Forall (λ lit : Literal, (lit.1, e.2) ∈ bg) body) →
  ∃ e, e ∈ pc ∧ Forall (λ lit : Literal, (lit.1, e.2) ∈ bg) body'.
Proof.
  revert body pc nc. induction fuel as [|fuel IH]; intros body pc nc Hr Hpc Hall; [discriminate |].
  destruct nc as [|e0 nc]; cbn [refine_body] in Hr.
  - injection Hr as <-. destruct pc as [|e pc]; [done |].
    exists e. split; [left | apply Hall; left].
  - destruct (scan_candidates _ _ _ _ _ _ _ _) as [st|err] eqn:Hscan; [| discriminate].
    destruct (best_literal st) as [lit|] eqn:Hlit.
    + destruct (refine_step _ _ _ _ _ _ _ _ Hscan Hlit) as (_ & _ & _ & Hcov & Hne).
      rewrite Hcov in Hr, Hne.
      destruct (IH _ _ _ Hr Hne) as (e & He & Hf).
      { intros e He. apply list_elem_of_filter in He as [Hbg He].
        apply Forall_app. split; [by apply Hall | by apply Forall_singleton]. }
      apply list_elem_of_filter in He as [_ He]. by exists e.
    + injection Hr as <-. destruct pc as [|e pc]; [done |].
      exists e. split; [left | apply Hall; left].
Qed.

Lemma refine_body_terminates fuel bg preds var body pc nc :
  NoDup (map fst body) → (∀ lit, lit ∈ body → lit.1 ∈ preds) →
  (length preds < fuel + length body)%nat →
  refine_body fuel bg preds var body pc nc ≠ Err OutOfFuel.
Proof.
  revert body pc nc. induction fuel as [|fuel IH]; intros body pc nc Hnd Hin Hlen.
  - exfalso. assert (length (map fst body) ≤ length preds)%nat; [| rewrite length_map in *; lia].
    apply NoDup_incl_length; [by apply NoDup_ListNoDup |].
    intros x Hx. apply in_map_iff in Hx as (lit & <- & Hl).
    apply list_elem_of_In, Hin. by apply list_elem_of_In.
  - destruct nc as [|e0 nc]; cbn [refine_body]; [discriminate |].
    destruct (scan_candidates _ _ _ _ _ _ _ _) as [st|err] eqn:Hscan.
    + destruct (best_literal st) as [lit|] eqn:Hlit; [| discriminate].
      destruct (refine_step _ _ _ _ _ _ _ _ Hscan Hlit) as (_ & Hp & Hn & _).
      apply IH; [by apply nodup_snoc_fst | |].
      * intros l Hl. apply elem_of_app in Hl as [Hl | Hl]; [by apply Hin |].
        apply list_elem_of_singleton in Hl as ->. done.
      * rewrite length_app. simpl. unfold Literal in *. lia.
    + apply scan_candidates_err in Hscan as ->. discriminate.
Qed.

Lemma learn_loop_terminates fuel bg preds pos_ex neg rules :
  (length pos_ex + length preds < fuel)%nat →
  learn_loop fuel bg preds pos_ex neg rules ≠ Err OutOfFuel.
Proof.
  revert pos_ex rules. induction fuel as [|fuel IH]; intros pos_ex rules Hlen; [lia |].
  destruct pos_ex as [|e0 pos']; cbn [learn_loop]; [discriminate |].
  destruct (refine_body _ _ _ _ _ _ _) as [body|err] eqn:Hr.
  - apply IH.
    destruct (refine_body_covers _ _ _ _ _ _ _ _ Hr) as (e & He & Hf).
    + match goal with |- ?pc ≠ [] =>
        assert (H0 : e0 ∈ pc) by (apply list_elem_of_filter; split; [done | left]) end.
      intros Hnil. rewrite Hnil in H0. inversion H0.
    + intros e _. constructor.
    + apply list_elem_of_filter in He as [Hhead He].
      assert (Hlt : (length (filter (λ e1 : Example, e1 ∉ filter (λ e2 : Example,
          e2.1 = e0.1 ∧ Forall (λ lit : Literal, (lit.1, e2.2) ∈ bg) body) (e0 :: pos'))
          (e0 :: pos')) < length (e0 :: pos'))%nat).
      { apply (length_filter_lt _ _ e He). intros Hn. apply Hn.
        apply list_elem_of_filter. split; [split; [exact Hhead | exact Hf] | exact He]. }
      simpl in Hlen, Hlt |- *. unfold Example, Literal in *. lia.
  - intros [= ->]. revert Hr. apply refine_body_terminates.
    + constructor.
    + intros lit Hl. inversion Hl.
    + simpl in Hlen |- *. lia.
Qed.

(** [learn_rules] always stops: every pass of the outer loop removes at
    least one positive example, and every pass of the inner loop adds a
    predicate not yet in the body.  The only exception it can end with is
    the [ValueError] of [foil_gain] (claims C2, C3). *)
Theorem learn_rules_terminates fuel pos neg background predicates
    (Hfuel : (length pos + length predicates < fuel)%nat) :
  learn_rules fuel pos neg background predicates ≠ Err OutOfFuel.
Proof.
  unfold learn_rules. exact (learn_loop_terminates _ _ _ _ _ _ Hfuel).
Qed.

Lemma learn_rules_terminates_witness :
  (length demo_pos + length ["Bird"; "Mammal"] < 6)%nat ∧
  learn_rules 6 demo_pos demo_neg demo_background ["Bird"; "Mammal"] ≠ Err OutOfFuel.
Proof.
  assert (H : (length demo_pos + length ["Bird"; "Mammal"] < 6)%nat)
    by (unfold demo_pos; simpl; lia).
  split; [exact H | exact (learn_rules_terminates 6 demo_pos demo_neg demo_background _ H)].
Defined.

Lemma learn_loop_covers fuel bg preds pos_ex neg rules rules' :
  learn_loop fuel bg preds pos_ex neg rules = Ok rules' →
  (∀ r, r ∈ rules → r ∈ rules') ∧
  (∀ e, e ∈ pos_ex → ∃ r, r ∈ rules' ∧ rule_covers bg r e).
Proof.
  revert pos_ex rules. induction fuel as [|fuel IH]; intros pos_ex rules H; [discriminate |].
  destruct pos_ex as [|e0 pos']; cbn [learn_loop] in H.
  - injection H as <-. split; [done | intros e He; inversion He].
  - destruct (refine_body _ _ _ _ _ _ _) as [body|err] eqn:Hr; [| discriminate].
    destruct (IH _ _ H) as [Hkeep Hcov]. split.
    + intros r Hr'. apply Hkeep, elem_of_app. by left.
    + intros e He.
      destruct (decide (e.1 = e0.1 ∧ Forall (λ lit : Literal, (lit.1, e.2) ∈ bg) body))
        as [Hc | Hc].
      * exists (e0.1, "X", body). split; [| exact Hc].
        apply Hkeep, elem_of_app. right. left.
      * apply Hcov, list_elem_of_filter. split; [| exact He].
        intros Hin. apply list_elem_of_filter in Hin as [Hc' _]. exact (Hc Hc').
Qed.

(** On success, every positive example passes the coverage test of line 88
    for some learned rule: the outer loop only stops once no positive
    example is left uncovered. *)
Theorem learn_rules_covers_pos fuel pos neg background predicates rules
    (Hres : learn_rules fuel pos neg background predicates = Ok rules)
    (e : Example) (He : e ∈ pos) :
  ∃ r, r ∈ rules ∧ rule_covers background r e.
Proof.
  unfold learn_rules in Hres. exact (proj2 (learn_loop_covers _ _ _ _ _ _ _ Hres) e He).
Qed.

Lemma learn_rules_covers_pos_witness :
  learn_rules 3 [("Fly", "tweety"); ("Swim", "nemo")] [] [("Bird", "tweety")] ["Bird"] =
    Ok [("Fly", "X", []); ("Swim", "X", [])] ∧
  ("Swim", "nemo") ∈ [("Fly", "tweety"); ("Swim", "nemo")] ∧
  ∃ r, r ∈ [("Fly", "X", []); ("Swim", "X", [])] ∧
       rule_covers [("Bird", "tweety")] r ("Swim", "nemo").
Proof.
  assert (Hres : learn_rules 3 [("Fly", "tweety"); ("Swim", "nemo")] [] [("Bird", "tweety")]
    ["Bird"] = Ok [("Fly", "X", []); ("Swim", "X", [])]) by (vm_compute; reflexivity).
  assert (He : ("Swim", "nemo") ∈ [("Fly", "tweety"); ("Swim", "nemo")]) by (right; left).
  split; [exact Hres | split; [exact He |]].
  exact (learn_rules_covers_pos _ _ _ _ _ _ Hres _ He).
Defined.

Lemma learn_loop_shape (P0 : list Example) fuel bg preds pos_ex neg rules rules' :
  learn_loop fuel bg preds pos_ex neg rules = Ok rules' →
  (∀ e, e ∈ pos_ex → e ∈ P0) →
  (∀ r : Rule, r ∈ rules → r.1.2 = "X" ∧ (∃ e, e ∈ P0 ∧ e.1 = r.1.1) ∧
     NoDup (map fst r.2) ∧ ∀ lit, lit ∈ r.2 → lit.1 ∈ preds ∧ lit.2 = "X") →
  ∀ r : Rule, r ∈ rules' → r.1.2 = "X" ∧ (∃ e, e ∈ P0 ∧ e.1 = r.1.1) ∧
     NoDup (map fst r.2) ∧ ∀ lit, lit ∈ r.2 → lit.1 ∈ preds ∧ lit.2 = "X".
Proof.
  revert pos_ex rules. induction fuel as [|fuel IH]; intros pos_ex rules H Hsub Hrules;
    [discriminate |].
  destruct pos_ex as [|e0 pos']; cbn [learn_loop] in H; [by injection H as <- |].
  destruct (refine_body _ _ _ _ _ _ _) as [body|err] eqn:Hr; [| discriminate].
  apply (IH _ _ H).
  - intros e He. apply list_elem_of_filter in He as [_ He]. by apply Hsub.
  - intros r Hr'. apply elem_of_app in Hr' as [Hr' | Hr']; [by apply Hrules |].
    apply list_elem_of_singleton in Hr' as ->. simpl.
    destruct (refine_body_shape _ _ _ _ _ _ _ _ Hr) as [Hnd Hl];
      [constructor | intros lit Hl; inversion Hl |].
    split; [done | split; [| split; [exact Hnd | exact Hl]]].
    exists e0. split; [apply Hsub; left | done].
Qed.

(** Every learned rule has the shape the code builds: the variable ["X"],
    the head predicate of one of the positive examples, and a body of
    literals [(pred, "X")] with [pred] taken from [predicates], no
    predicate used twice. *)
Theorem learn_rules_rule_shape fuel pos neg background predicates rules
    (Hres : learn_rules fuel pos neg background predicates = Ok rules)
    (r : Rule) (Hr : r ∈ rules) :
  r.1.2 = "X" ∧ (∃ e, e ∈ pos ∧ e.1 = r.1.1) ∧
  NoDup (map fst r.2) ∧ ∀ lit, lit ∈ r.2 → lit.1 ∈ predicates ∧ lit.2 = "X".
Proof.
  unfold learn_rules in Hres.
  apply (learn_loop_shape pos _ _ _ _ _ _ _ Hres); [done | | exact Hr].
  intros r' Hr'. inversion Hr'.
Qed.

(** Scoring [Bird] on the three positives and two negatives of the
    module's example: [foil_gain(3, 2, 3, 0) = 3 * (log2 1 - log2 (3/5)) > 0]. *)
Lemma foil_gain_bird_pos : ∃ g, foil_gain 3 2 3 0 = Ok g ∧ (0 < g)%R.
Proof.
  unfold foil_gain, math_log2. simpl.
  destruct (Rle_dec _ 0) as [Hle | _].
  { exfalso. exact (ratio_pos 3 3 ltac:(lia) ltac:(lia) Hle). }
  destruct (Rle_dec _ 0) as [Hle | _].
  { exfalso. exact (ratio_pos 3 5 ltac:(lia) ltac:(lia) Hle). }
  eexists. split; [reflexivity |].
  simpl.
  assert (H3 : ((1 + 1 + 1) / (1 + 1 + 1) = 1)%R) by (field; lra).
  rewrite H3, ln_1.
  assert (Hl2 : (0 < ln 2)%R) by (rewrite <- ln_1; apply ln_increasing; lra).
  assert (Hx : (0 < (1 + 1 + 1) / (1 + 1 + 1 + 1 + 1) < 1)%R).
  { split; [apply Rdiv_lt_0_compat; lra |].
    apply (Rmult_lt_reg_r (1 + 1 + 1 + 1 + 1)); [lra |].
    unfold Rdiv. rewrite Rmult_assoc, Rinv_l; lra. }
  assert (Hl35 : (ln ((1 + 1 + 1) / (1 + 1 + 1 + 1 + 1)) < 0)%R)
    by (rewrite <- ln_1; apply ln_increasing; lra).
  assert (Hq : (0 < - ln ((1 + 1 + 1) / (1 + 1 + 1 + 1 + 1)) / ln 2)%R)
    by (apply Rdiv_lt_0_compat; lra).
  unfold Rdiv in *. lra.
Qed.

(** With the predicates [{Bird}] only, the inner loop of the module's
    example adds [Bird(X)], which excludes both negatives. *)
Lemma demo_bird_refine g (Hg : foil_gain 3 2 3 0 = Ok g) (Hpos : (0 < g)%R) :
  refine_body 4 demo_background ["Bird"] "X" []
    (filter (λ e : Example, e.1 = "Fly") demo_pos)
    (filter (λ e : Example, e.1 = "Fly") demo_neg) = Ok [("Bird", "X")].
Proof.
  match goal with |- refine_body _ _ _ _ _ ?pc ?nc = _ => eval_closed pc; eval_closed nc end.
  cbn [refine_body].
  match goal with |- context [scan_candidates _ _ _ _ _ _ ?c _] => eval_closed c end.
  cbn [scan_candidates].
  match goal with |- context [foil_gain ?p ?n ?a ?b] =>
    eval_closed p; eval_closed n; eval_closed a; eval_closed b end.
  rewrite Hg. cbn [scan_candidates best_gain best_init].
  destruct (Rlt_dec 0 g) as [_ | Hn]; [| contradiction].
  cbn [best_literal best_pos_cover best_neg_cover refine_body].
  match goal with |- match ?x with _ => _ end = _ => eval_closed x end.
  reflexivity.
Qed.

Lemma demo_bird_run g (Hg : foil_gain 3 2 3 0 = Ok g) (Hpos : (0 < g)%R) :
  learn_rules 4 demo_pos demo_neg demo_background ["Bird"] =
    Ok [("Fly", "X", [("Bird", "X")])].
Proof.
  unfold learn_rules, demo_pos. cbn [learn_loop].
  match goal with |- context [refine_body ?f ?bg ?ps ?v ?b ?pc ?nc] =>
    assert (E : refine_body f bg ps v b pc nc = Ok [("Bird", "X")])
      by exact (demo_bird_refine g Hg Hpos); rewrite E end.
  cbv beta iota zeta.
  match goal with |- match ?x with _ => _ end = _ => eval_closed x end.
  reflexivity.
Qed.

Lemma learn_rules_rule_shape_witness :
  learn_rules 4 demo_pos demo_neg demo_background ["Bird"] =
    Ok [("Fly", "X", [("Bird", "X")])] ∧
  (("Fly", "X", [("Bird", "X")]) : Rule) ∈ [("Fly", "X", [("Bird", "X")])] ∧
  (("Fly", "X", [("Bird", "X")]) : Rule).1.2 = "X" ∧
  (∃ e, e ∈ demo_pos ∧ e.1 = (("Fly", "X", [("Bird", "X")]) : Rule).1.1) ∧
  NoDup (map fst (("Fly", "X", [("Bird", "X")]) : Rule).2) ∧
  ∀ lit, lit ∈ (("Fly", "X", [("Bird", "X")]) : Rule).2 → lit.1 ∈ ["Bird"] ∧ lit.2 = "X".
Proof.
  destruct foil_gain_bird_pos as (g & Hg & Hpos).
  pose proof (demo_bird_run g Hg Hpos) as Hres.
  assert (Hr : (("Fly", "X", [("Bird", "X")]) : Rule) ∈ [("Fly", "X", [("Bird", "X")])])
    by left.
  split; [exact Hres | split; [exact Hr |]].
  exact (learn_rules_rule_shape _ _ _ _ _ _ Hres _ Hr).
Defined.

End InductionMore.
